(** * Khmer NER service (ml-khmer-ner/app/main.py): shallow embedding

    The inference pipeline of the entity recogniser: text normalisation,
    whitespace tokenisation with offsets, the character vocabulary, the
    fixed-width word encoder, the two-stage recurrent model seen through
    its interface, the arg-max head and the BIO decoder.

    Python values are modelled as follows:
    - [str] is a list of Unicode code points ([pystr]); [len] and slicing
      count code points, as in Python 3;
    - [int] is [Z]; positions inside a list are [nat];
    - [float] is IEEE binary64, the primitive [float] of the kernel;
    - [dict] is a [gmap], [set] is a [gset];
    - a subscript [d[k]] that can raise [KeyError] returns [option]. *)

From Stdlib Require Import ZArith NArith List Ascii String Floats Sorted Lia.
From stdpp Require Import base option list gmap sorting pretty.
Import ListNotations.

Local Open Scope Z_scope.

(* Decimal float literals denote the nearest binary64 value, as in Python. *)
Set Warnings "-inexact-float".

(** ** Python strings *)

Definition codepoint := N.
Abbreviation pystr := (list N).

(** Bytes of a literal of this file (which is UTF-8 encoded). *)
Fixpoint bytes_of_string (s : string) : list N :=
  match s with
  | EmptyString => []
  | String a r => N_of_ascii a :: bytes_of_string r
  end.

(** UTF-8 decoding, used only to write Python string literals. *)
Fixpoint utf8_decode (bs : list N) : pystr :=
  match bs with
  | [] => []
  | b :: r =>
      if (b <? 128)%N then b :: utf8_decode r
      else if (b <? 224)%N then
        match r with
        | c1 :: r1 => ((b - 192) * 64 + (c1 - 128))%N :: utf8_decode r1
        | _ => []
        end
      else if (b <? 240)%N then
        match r with
        | c1 :: c2 :: r2 =>
            ((b - 224) * 4096 + (c1 - 128) * 64 + (c2 - 128))%N :: utf8_decode r2
        | _ => []
        end
      else
        match r with
        | c1 :: c2 :: c3 :: r3 =>
            ((b - 240) * 262144 + (c1 - 128) * 4096 + (c2 - 128) * 64 + (c3 - 128))%N
              :: utf8_decode r3
        | _ => []
        end
  end.

Definition py (s : string) : pystr := utf8_decode (bytes_of_string s).

Definition len {A} (l : list A) : Z := Z.of_nat (length l).

(** [str.isspace] on one code point, the test behind [re]'s [\s] and
    [str.strip()] (CPython's [_PyUnicode_IsWhitespace]). *)
Definition py_isspace (c : codepoint) : bool :=
  ((9 <=? c) && (c <=? 13) || (28 <=? c) && (c <=? 32) || (c =? 133) || (c =? 160)
   || (c =? 5760) || (8192 <=? c) && (c <=? 8202) || (c =? 8232) || (c =? 8233)
   || (c =? 8239) || (c =? 8287) || (c =? 12288))%N.

(** [s.replace(ch, "")] for a one-character [ch]. *)
Definition py_remove (ch : codepoint) (s : pystr) : pystr :=
  filter (fun c => c ≠ ch) s.

(** [" " in s], [s.split(sep, 1)] for a one-character separator. *)
Definition py_contains (ch : codepoint) (s : pystr) : bool :=
  bool_decide (ch ∈ s).

Fixpoint py_split1 (sep : codepoint) (s : pystr) : list pystr :=
  match s with
  | [] => [[]]
  | c :: r =>
      if decide (c = sep) then [[]; r]
      else match py_split1 sep r with
           | p :: ps => (c :: p) :: ps
           | [] => [[c]]
           end
  end.

(** ** Constants *)

Definition PAD : pystr := py "<PAD>".
Definition UNK : pystr := py "<UNK>".
Definition MAX_WORD_LEN : Z := 24.

Definition ZWSP : codepoint := 0x200b%N.
Definition BOM : codepoint := 0xfeff%N.

(** NFC on the strings that are already in NFC (the empty string, ASCII,
    the Khmer tokens of the examples): used for the concrete examples. *)
Definition nfc_inert (s : pystr) : pystr := s.

Section Normalizer.

(** [unicodedata.normalize("NFC", _)], a function of the Python library. *)
Variable nfc : pystr -> pystr.

Definition normalize_text (s : pystr) : pystr :=
  py_remove BOM (py_remove ZWSP (nfc s)).

(** ** Whitespace tokenizer

    [re.finditer(r"\S+", text)]: the maximal runs of non-whitespace, left to
    right. [ws_scan i run s] is the scan at offset [i], inside the run
    [run] (its start and its characters so far) or outside of any. *)
Fixpoint ws_scan (i : Z) (run : option (Z * pystr)) (s : pystr)
  : list (pystr * (Z * Z)) :=
  match s with
  | [] =>
      match run with
      | Some (st, tok) => [(tok, (st, i))]
      | None => []
      end
  | c :: r =>
      if py_isspace c then
        match run with
        | Some (st, tok) => (tok, (st, i)) :: ws_scan (i + 1) None r
        | None => ws_scan (i + 1) None r
        end
      else
        match run with
        | Some (st, tok) => ws_scan (i + 1) (Some (st, tok ++ [c])) r
        | None => ws_scan (i + 1) (Some (i, [c])) r
        end
  end.

Definition ws_tokens_with_spans (text : pystr) : list pystr * list (Z * Z) :=
  let ms := ws_scan 0 None text in
  (map fst ms, map snd ms).

(** ** Character vocabulary *)

(** The two nested loops of [build_char_vocab] filling the set [chars]. *)
Definition add_word_chars (chars : gset N) (w : pystr) : gset N :=
  fold_left (fun acc ch => if negb (py_isspace ch) then acc ∪ {[ch]} else acc)
            (normalize_text w) chars.

Definition collect_chars (words : list pystr) : gset N :=
  fold_left add_word_chars words ∅.

(** [sorted] on a set of one-character strings: by code point. *)
Definition py_sorted (chars : gset N) : list N :=
  merge_sort N.le (elements chars).

Definition enumerate {A} (l : list A) : list (Z * A) :=
  imap (fun i x => (Z.of_nat i, x)) l.

(** [{c: i for i, c in pairs}]: a later pair overrides an earlier one. *)
Definition dict_of_pairs (pairs : list (Z * pystr)) : gmap pystr Z :=
  fold_left (fun d p => <[p.2 := p.1]> d) pairs ∅.

Definition idx2char_of (words : list pystr) : list pystr :=
  [PAD; UNK] ++ map (fun c => [c]) (py_sorted (collect_chars words)).

Definition build_char_vocab (words : list pystr) : gmap pystr Z :=
  dict_of_pairs (enumerate (idx2char_of words)).

(** ** Word encoder *)

(** [vocab.get(ch, vocab[UNK])]: the default is evaluated first and raises
    when [UNK] is not a key. *)
Definition lookup_char (vocab : gmap pystr Z) (ch : codepoint) : option Z :=
  unk ← vocab !! UNK;
  Some (default unk (vocab !! [ch])).

Definition encode_word (word : pystr) (vocab : gmap pystr Z) : option (list Z) :=
  let word := normalize_text word in
  ids ← mapM (lookup_char vocab) (take (Z.to_nat MAX_WORD_LEN) word);
  if len ids <? MAX_WORD_LEN then
    pad ← vocab !! PAD;
    Some (ids ++ replicate (Z.to_nat (MAX_WORD_LEN - len ids)) pad)
  else Some ids.

Definition true_char_len (word : pystr) : Z :=
  Z.min (len (normalize_text word)) MAX_WORD_LEN.

End Normalizer.

(** ** Label parsing

    [prefix, tag = (label.split("-", 1) + [""])[:2] if "-" in label
                   else ("B", label)].
    The slice always has two elements; the last branch of the [match]
    stands for the unpacking error that cannot happen. *)

Definition HYPHEN : codepoint := 45%N.

Definition parse_label (label : pystr) : pystr * pystr :=
  if py_contains HYPHEN label then
    match take 2 (py_split1 HYPHEN label ++ [[]]) with
    | [prefix; tag] => (prefix, tag)
    | _ => ([], [])
    end
  else (py "B", label).

(** ** Entity decoder *)

Record EntityOut := {
  ent_text : pystr;
  ent_label : pystr;
  ent_score : float;
  ent_start : Z;
  ent_end : Z
}.

(** The dictionary [current] of [decode_entities]. *)
Record span_acc := {
  cur_text : pystr;
  cur_label : pystr;
  cur_scores : list float;
  cur_start : Z;
  cur_end : Z
}.

(** The two variables the loop and [flush] share. *)
Record decoder := {
  entities : list EntityOut;
  current : option span_acc
}.

(** [sum] over floats: left to right from [0]. *)
Definition py_sum (l : list float) : float :=
  fold_left PrimFloat.add l 0%float.

(** [sum] as CPython computes it from version 3.12 on: Neumaier's
    compensated summation. *)
Definition neumaier_add (acc : float * float) (x : float) : float * float :=
  let '(hi, lo) := acc in
  let t := PrimFloat.add hi x in
  let d := if PrimFloat.leb (PrimFloat.abs x) (PrimFloat.abs hi)
           then PrimFloat.add (PrimFloat.sub hi t) x
           else PrimFloat.add (PrimFloat.sub x t) hi in
  (t, PrimFloat.add lo d).

Definition py_sum_compensated (l : list float) : float :=
  let '(hi, lo) := fold_left neumaier_add l (0%float, 0%float) in
  if negb (PrimFloat.eqb lo 0%float) && PrimFloat.is_finite lo
  then PrimFloat.add hi lo else hi.

(** A Python [int] used as a divisor of a [float]. *)
Definition float_of_int (n : Z) : float :=
  PrimFloat.of_uint63 (Uint63.of_Z n).

(** [sum(scores) / max(len(scores), 1)] *)
Definition mean_score (scores : list float) : float :=
  PrimFloat.div (py_sum scores) (float_of_int (Z.max (len scores) 1)).

Definition entity_of (c : span_acc) : EntityOut :=
  {| ent_text := cur_text c;
     ent_label := cur_label c;
     ent_score := mean_score (cur_scores c);
     ent_start := cur_start c;
     ent_end := cur_end c |}.

Definition flush (d : decoder) : decoder :=
  match current d with
  | None => d
  | Some c => {| entities := entities d ++ [entity_of c]; current := None |}
  end.

Definition SPACE : codepoint := 32%N.

(** One row of [zip(tokens, spans, labels, scores)]. *)
Record row := {
  r_token : pystr;
  r_span : Z * Z;
  r_label : pystr;
  r_score : float
}.

Fixpoint zip4 (tokens : list pystr) (spans : list (Z * Z))
    (labels : list pystr) (scores : list float) : list row :=
  match tokens, spans, labels, scores with
  | t :: ts, s :: ss, l :: ls, c :: cs =>
      {| r_token := t; r_span := s; r_label := l; r_score := c |} :: zip4 ts ss ls cs
  | _, _, _, _ => []
  end.

Definition begin_span (r : row) (tag : pystr) : span_acc :=
  {| cur_text := r_token r;
     cur_label := tag;
     cur_scores := [r_score r];
     cur_start := (r_span r).1;
     cur_end := (r_span r).2 |}.

Definition extend_span (c : span_acc) (r : row) : span_acc :=
  {| cur_text := cur_text c ++ [SPACE] ++ r_token r;
     cur_label := cur_label c;
     cur_scores := cur_scores c ++ [r_score r];
     cur_start := cur_start c;
     cur_end := (r_span r).2 |}.

(** The body of the [for] loop. *)
Definition decode_step (d : decoder) (r : row) : decoder :=
  if decide (r_label r = py "O") then flush d
  else
    let '(prefix, tag) := parse_label (r_label r) in
    match current d with
    | Some c =>
        if bool_decide (prefix = py "B") || bool_decide (cur_label c ≠ tag) then
          {| entities := entities (flush d); current := Some (begin_span r tag) |}
        else
          {| entities := entities d; current := Some (extend_span c r) |}
    | None =>
        {| entities := entities (flush d); current := Some (begin_span r tag) |}
    end.

Definition decode_entities (tokens : list pystr) (spans : list (Z * Z))
    (labels : list pystr) (scores : list float) : list EntityOut :=
  entities
    (flush (fold_left decode_step (zip4 tokens spans labels scores)
              {| entities := []; current := None |})).

(** ** The model, through the interface the service uses

    Tensors are lists; the trained parameters are the functions they
    define. Batch size is 1, as in [ner]. *)

Abbreviation vec := (list float).

(** [CharEncoder]: an embedding table and a one-direction GRU, given by
    its cell and its initial (zero) hidden state. *)
Record CharEncoder := {
  emb : Z -> vec;
  gru_cell : vec -> vec -> vec;
  gru_h0 : vec
}.

(** [NerModel]: the character encoder, the bidirectional context GRU and
    the linear BIO head. *)
Record NerModel := {
  char_encoder : CharEncoder;
  ctx_rnn : list vec -> list vec;
  bio_head : vec -> vec
}.

(** The GRU over one row of the packed batch: the cell is applied to the
    first [l] embedded ids only, and the last hidden state is returned.
    [pack_padded_sequence] rejects a length below 1 or beyond the row. *)
Definition char_encoder_row (enc : CharEncoder) (x : list Z) (l : Z)
  : option vec :=
  if (1 <=? l) && (l <=? len x) then
    Some (fold_left (gru_cell enc) (take (Z.to_nat l) (map (emb enc) x)) (gru_h0 enc))
  else None.

(** [CharEncoder.forward] *)
Definition CharEncoder_forward (enc : CharEncoder) (x : list (list Z))
    (lengths : list Z) : option (list vec) :=
  if decide (len x = len lengths) then
    mapM (fun p => char_encoder_row enc p.1 p.2) (zip x lengths)
  else None.

(** [torch.clamp(lengths_flat, min=1)] *)
Definition clamp_min (lo : Z) (l : list Z) : list Z := map (Z.max lo) l.

(** [NerModel.forward] *)
Definition NerModel_forward (m : NerModel) (x : list (list Z)) (lengths : list Z)
  : option (list vec) :=
  let lengths_safe := clamp_min 1 lengths in
  h ← CharEncoder_forward (char_encoder m) x lengths_safe;
  let out := ctx_rnn m h in
  Some (map (bio_head m) out).

(** [torch.argmax(probs, dim=-1)] on one row without NaN: the index of the
    first maximal value; [probs.max(dim=-1).values]: the maximal value.
    Both raise on an empty row. *)
Fixpoint argmax_from (best_i : nat) (best : float) (i : nat) (l : vec) : nat :=
  match l with
  | [] => best_i
  | x :: r =>
      if PrimFloat.ltb best x then argmax_from i x (S i) r
      else argmax_from best_i best (S i) r
  end.

Definition torch_argmax (probs : vec) : option nat :=
  match probs with
  | [] => None
  | x :: r => Some (argmax_from 0 x 1 r)
  end.

Definition torch_max (probs : vec) : option float :=
  match probs with
  | [] => None
  | x :: r => Some (fold_left (fun m y => if PrimFloat.ltb m y then y else m) r x)
  end.

(** ** The endpoint *)

(** The module-level variables [model], [id2label], [char2idx]. *)
Record globals := {
  model : option NerModel;
  id2label : option (gmap pystr pystr);
  char2idx : option (gmap pystr Z)
}.

Inductive response :=
| HTTP_400
| HTTP_503
| HTTP_500
| NerOut (text : pystr) (ents : list EntityOut).

(** [str(idx)] *)
Definition py_str (idx : Z) : pystr := py (pretty idx).

(** [[id2label.get(str(idx), "O") for idx in pred_ids]] *)
Definition labels_of (i2l : gmap pystr pystr) (pred_ids : list nat) : list pystr :=
  map (fun idx => default (py "O") (i2l !! py_str (Z.of_nat idx))) pred_ids.

Section Endpoint.

Variable nfc : pystr -> pystr.
(** [torch.softmax(_, dim=-1)] on one row. *)
Variable softmax : vec -> vec.

(** [ner]: the response, and the number of forward passes of the model
    that were run to produce it. *)
Definition ner (g : globals) (inp_text : pystr) : response * nat :=
  if decide (inp_text = []) then (HTTP_400, 0%nat)
  else
    match model g, id2label g, char2idx g with
    | Some m, Some i2l, Some c2i =>
        let text := normalize_text nfc inp_text in
        let '(tokens, spans) := ws_tokens_with_spans text in
        if decide (tokens = []) then (NerOut text [], 0%nat)
        else
          match mapM (fun w => encode_word nfc w c2i) tokens with
          | None => (HTTP_500, 0%nat)
          | Some x =>
              let lc := map (true_char_len nfc) tokens in
              match NerModel_forward m x lc with
              | None => (HTTP_500, 1%nat)
              | Some logits =>
                  let probs := map softmax logits in
                  match mapM torch_argmax probs, mapM torch_max probs with
                  | Some pred_ids, Some pred_scores =>
                      let labels := labels_of i2l pred_ids in
                      (NerOut text (decode_entities tokens spans labels pred_scores),
                       1%nat)
                  | _, _ => (HTTP_500, 1%nat)
                  end
              end
          end
    | _, _, _ => (HTTP_503, 0%nat)
    end.

End Endpoint.

(** ** Auxiliary definitions of the specification *)

(** What the loop emits from the state [cur] on, end flush included. *)
Fixpoint emit (cur : option span_acc) (rows : list row) : list EntityOut :=
  match rows with
  | [] => entities (flush {| entities := []; current := cur |})
  | r :: rs =>
      let d := decode_step {| entities := []; current := cur |} r in
      entities d ++ emit (current d) rs
  end.

(** Offsets of a span or of an entity, and the order on them. *)
Definition ent_span (e : EntityOut) : Z * Z := (ent_start e, ent_end e).

Definition span_wf (p : Z * Z) : Prop := p.1 <= p.2.

(** [p] lies to the left of [q]: it ends before [q] starts, and starts
    strictly earlier. *)
Definition span_before (p q : Z * Z) : Prop := p.2 <= q.1 /\ p.1 < q.1.

(** A list of spans that continues, in order, after a span [(a, b)]. *)
Fixpoint chain (a b : Z) (l : list (Z * Z)) : Prop :=
  match l with
  | [] => True
  | p :: r => a < p.1 /\ b <= p.1 /\ p.1 <= p.2 /\ chain p.1 p.2 r
  end.

(** The state of the decoder as a lower bound for what it will emit. *)
Definition chain_from (a b : Z) (cur : option span_acc) (l : list (Z * Z)) : Prop :=
  match cur with
  | None => chain a b l
  | Some c =>
      a < cur_start c /\ b <= cur_start c /\ cur_start c <= cur_end c /\
      chain (cur_start c) (cur_end c) l
  end.

(** The scenario of the specification. *)
Definition scenario_tokens : list pystr :=
  [py "ចន"; py "ធី"; py "រស់"; py "នៅ"; py "ភ្នំពេញ"].
Definition scenario_labels : list pystr :=
  [py "B-PER"; py "I-PER"; py "O"; py "O"; py "B-LOC"].
Definition scenario_scores : list float := [0.9; 0.8; 0.6; 0.7; 0.95]%float.

(** Does [p] start the string [s]? *)
Definition starts_with (p s : pystr) : Prop := exists r, s = p ++ r.

(** The row [r] with another label. *)
Definition with_label (r : row) (l : pystr) : row :=
  {| r_token := r_token r; r_span := r_span r; r_label := l; r_score := r_score r |}.

(** A decoder that is accumulating a span of type LOC, and a row whose
    label has a prefix that is neither B nor I. *)
Definition acc_loc : decoder :=
  {| entities := [];
     current := Some {| cur_text := py "a"; cur_label := py "LOC"; cur_scores := [0.5%float];
                        cur_start := 0; cur_end := 1 |} |}.

Definition row_x_loc : row :=
  {| r_token := py "b"; r_span := (2, 3); r_label := py "X-LOC"; r_score := 0.5%float |}.

(** The order of binary64 values that are not NaN, as a lexicographic
    order on integer keys: sign class, then exponent, then mantissa. *)
Definition sf_key (f : spec_float) : Z * Z * Z :=
  match f with
  | S754_nan => (0, 0, 0)
  | S754_zero _ => (0, 0, 0)
  | S754_infinity true => (-2, 0, 0)
  | S754_infinity false => (2, 0, 0)
  | S754_finite true m e => (-1, - e, Z.neg m)
  | S754_finite false m e => (1, e, Z.pos m)
  end.

Definition fkey (x : float) : Z * Z * Z := sf_key (Prim2SF x).

Definition lt3 (k k' : Z * Z * Z) : Prop :=
  k.1.1 < k'.1.1 \/
  (k.1.1 = k'.1.1 /\ (k.1.2 < k'.1.2 \/ (k.1.2 = k'.1.2 /\ k.2 < k'.2))).

Definition cmp3 (k k' : Z * Z * Z) : comparison :=
  match k.1.1 ?= k'.1.1 with
  | Eq => match k.1.2 ?= k'.1.2 with
          | Eq => k.2 ?= k'.2
          | r => r
          end
  | r => r
  end.

Definition not_nan (x : float) : Prop := PrimFloat.is_nan x = false.

(** A small model and vocabulary, for the concrete examples. *)
Definition toy_encoder : CharEncoder :=
  {| emb := fun i => [float_of_int i];
     gru_cell := fun h e => h ++ e;
     gru_h0 := [] |}.

Definition toy_model : NerModel :=
  {| char_encoder := toy_encoder; ctx_rnn := fun h => h; bio_head := fun v => v |}.

Definition toy_globals : globals :=
  {| model := Some toy_model;
     id2label := Some (<[ py "1" := py "B-LOC" ]> {[ py "0" := py "O" ]});
     char2idx := Some (build_char_vocab nfc_inert [py "ab"]) |}.

Definition toy_softmax (v : vec) : vec := v.

(** ** Auxiliary definitions for the further properties *)

(** A token [tok] with span [(st, e)] is a maximal run of non-whitespace
    of [text]: the text splits around it, with whitespace (or nothing) on
    both sides. *)
Definition token_at (text : pystr) (m : pystr * (Z * Z)) : Prop :=
  exists before after,
    text = before ++ m.1 ++ after /\
    m.2.1 = len before /\
    m.2.2 = len before + len m.1 /\
    m.1 <> [] /\
    Forall (fun c => py_isspace c = false) m.1 /\
    (forall c, last before = Some c -> py_isspace c = true) /\
    (forall c, head after = Some c -> py_isspace c = true).

(** The invariant of [ws_scan]: what has been read, [pre], ends with the
    characters of the open run, or with whitespace when no run is open. *)
Definition scan_inv (pre : pystr) (run : option (Z * pystr)) : Prop :=
  match run with
  | None => forall c, last pre = Some c -> py_isspace c = true
  | Some (st, tok) =>
      exists pre0, pre = pre0 ++ tok /\ st = len pre0 /\ tok <> [] /\
                   Forall (fun c => py_isspace c = false) tok /\
                   (forall c, last pre0 = Some c -> py_isspace c = true)
  end.

(** Spans that follow each other with a gap, the first one after [b]. *)
Fixpoint gaps (b : Z) (l : list (Z * Z)) : Prop :=
  match l with
  | [] => True
  | p :: r => b < p.1 /\ p.1 < p.2 /\ gaps p.2 r
  end.

(** [" ".join(l)] *)
Definition py_join_space (l : list pystr) : pystr :=
  match l with
  | [] => []
  | x :: r => x ++ flat_map (fun y => SPACE :: y) r
  end.

(** Rows by the branch of the loop they take: label "O", or a label whose
    parsed prefix is "B". *)
Definition is_outside (r : row) : bool := bool_decide (r_label r = py "O").

Definition is_begin (r : row) : bool :=
  negb (is_outside r) && bool_decide ((parse_label (r_label r)).1 = py "B").

(** An entity that comes from the rows [rows]: it starts where a row that
    is not "O" starts, its label is the tag of that row, and it ends where
    a row that is not "O" ends. *)
Definition entity_from (rows : list row) (e : EntityOut) : Prop :=
  exists r r', r ∈ rows /\ r' ∈ rows /\
    is_outside r = false /\ is_outside r' = false /\
    ent_label e = (parse_label (r_label r)).2 /\
    ent_start e = (r_span r).1 /\
    ent_end e = (r_span r').2.

Definition span_from (rows : list row) (c : span_acc) : Prop :=
  exists r r', r ∈ rows /\ r' ∈ rows /\
    is_outside r = false /\ is_outside r' = false /\
    cur_label c = (parse_label (r_label r)).2 /\
    cur_start c = (r_span r).1 /\
    cur_end c = (r_span r').2.

(** ** Loading the artifacts

    [load_artifacts] reads four files and assigns the module-level
    variables one after the other; an exception leaves the assignments
    made so far. The state is threaded explicitly, and a computation
    returns [None] when it raised. *)

(** The module-level variables, [pad_idx] and [unk_idx] included. *)
Record service := {
  globals_of : globals;
  pad_idx : Z;
  unk_idx : Z
}.

Definition service_init : service :=
  {| globals_of := {| model := None; id2label := None; char2idx := None |};
     pad_idx := 0;
     unk_idx := 1 |}.

Definition loader (A : Type) : Type := service -> option A * service.

Definition loader_ret {A} (x : A) : loader A := fun s => (Some x, s).

Definition loader_bind {A B} (m : loader A) (k : A -> loader B) : loader B :=
  fun s => match m s with
           | (Some x, s') => k x s'
           | (None, s') => (None, s')
           end.

(** The value of an expression that may raise. *)
Definition attempt {A} (o : option A) : loader A := fun s => (o, s).

Definition set_model (m : NerModel) : loader unit := fun s =>
  (Some tt, {| globals_of := {| model := Some m; id2label := id2label (globals_of s);
                                char2idx := char2idx (globals_of s) |};
               pad_idx := pad_idx s; unk_idx := unk_idx s |}).

Definition set_id2label (i2l : gmap pystr pystr) : loader unit := fun s =>
  (Some tt, {| globals_of := {| model := model (globals_of s); id2label := Some i2l;
                                char2idx := char2idx (globals_of s) |};
               pad_idx := pad_idx s; unk_idx := unk_idx s |}).

Definition set_char2idx (c2i : gmap pystr Z) : loader unit := fun s =>
  (Some tt, {| globals_of := {| model := model (globals_of s);
                                id2label := id2label (globals_of s);
                                char2idx := Some c2i |};
               pad_idx := pad_idx s; unk_idx := unk_idx s |}).

Definition set_pad_idx (i : Z) : loader unit := fun s =>
  (Some tt, {| globals_of := globals_of s; pad_idx := i; unk_idx := unk_idx s |}).

Definition set_unk_idx (i : Z) : loader unit := fun s =>
  (Some tt, {| globals_of := globals_of s; pad_idx := pad_idx s; unk_idx := i |}).

Section Loader.

Variable nfc : pystr -> pystr.

(** What [torch.load] returns. *)
Variable state_dict : Type.

(** [NerModel(vocab_size, emb_dim, hid_dim, num_labels, pad_idx)]: a model
    with fresh parameters, or an exception for sizes torch rejects. *)
Variable new_NerModel : Z -> Z -> Z -> Z -> Z -> option NerModel.

(** [model.load_state_dict(state, strict=True)] works in place: the model
    after the call, and whether the call returned ([true]) or raised. *)
Variable load_state_dict : NerModel -> state_dict -> NerModel * bool.

Local Notation "x <- m ;; k" := (loader_bind m (fun x => k))
  (at level 100, m at next level, right associativity, only parsing).
Local Notation "m >> k" := (loader_bind m (fun _ => k))
  (at level 100, right associativity, only parsing).

(** What reading and parsing each file of MODEL_DIR gives; [None] is an
    exception. Of vocab.json only the keys are used. *)
Record artifact_files := {
  config_json : option (gmap pystr Z);
  id2label_json : option (gmap pystr pystr);
  vocab_json : option (list pystr);
  model_pt : option state_dict
}.

(** [load_artifacts]; [model.eval()] changes nothing for these layers. *)
Definition load_artifacts (fs : artifact_files) : loader unit :=
  cfg <- attempt (config_json fs) ;;
  i2l <- attempt (id2label_json fs) ;;
  set_id2label i2l >>
  vocab_words <- attempt (vocab_json fs) ;;
  let c2i := build_char_vocab nfc vocab_words in
  set_char2idx c2i >>
  pad <- attempt (c2i !! PAD) ;;
  set_pad_idx pad >>
  unk <- attempt (c2i !! UNK) ;;
  set_unk_idx unk >>
  vocab_size <- loader_ret (Z.of_nat (size c2i)) ;;
  emb_dim <- attempt (cfg !! py "embedding_dim") ;;
  hid_dim <- attempt (cfg !! py "hidden_dim") ;;
  num_labels <- attempt (cfg !! py "num_labels") ;;
  m <- attempt (new_NerModel vocab_size emb_dim hid_dim num_labels pad) ;;
  set_model m >>
  state <- attempt (model_pt fs) ;;
  set_model (load_state_dict m state).1 >>
  attempt (if (load_state_dict m state).2 then Some tt else None).

(** [startup]: exceptions of [load_artifacts] are swallowed. *)
Definition startup (fs : artifact_files) (s : service) : service :=
  (load_artifacts fs s).2.

(** [health]: the fields "ok" and "model_loaded". *)
Definition health (s : service) : bool * bool :=
  (true, match model (globals_of s) with Some _ => true | None => false end).

End Loader.

(** Files and constructor for the concrete examples: the weights file
    cannot be read. *)
Definition toy_files : artifact_files unit :=
  {| config_json := Some (<[ py "embedding_dim" := 4 ]>
                           (<[ py "hidden_dim" := 4 ]> {[ py "num_labels" := 2 ]}));
     id2label_json := Some (<[ py "1" := py "B-LOC" ]> {[ py "0" := py "O" ]});
     vocab_json := Some [py "ab"];
     model_pt := None |}.

Definition toy_new_NerModel (vocab_size emb_dim hid_dim num_labels pad : Z)
  : option NerModel := Some toy_model.

Definition toy_load_state_dict (m : NerModel) (st : unit) : NerModel * bool := (m, true).

(** Spans that follow each other with a gap, after [b] and up to [hi]. *)
Fixpoint gaps_to (b hi : Z) (l : list (Z * Z)) : Prop :=
  match l with
  | [] => True
  | p :: r => b < p.1 /\ p.1 < p.2 /\ p.2 <= hi /\ gaps_to p.2 hi r
  end.

(** A model whose head gives at least one logit per token. *)
Definition toy_model_head : NerModel :=
  {| char_encoder := toy_encoder; ctx_rnn := fun h => h;
     bio_head := fun v => 1%float :: v |}.

(** * Properties *)

Example py_khmer : py "ចន" = [0x1785; 0x1793]%N.
Proof. reflexivity. Qed.

Example tokens_example :
  ws_tokens_with_spans (py " ab  c") = ([py "ab"; py "c"], [(1, 3); (5, 6)]).
Proof. reflexivity. Qed.

(** ** Label parsing *)

Lemma py_split1_hyphen (sep : codepoint) (p t : pystr) :
  sep ∉ p -> py_split1 sep (p ++ sep :: t) = [p; t].
Proof.
  induction p as [|c p IH]; intros Hp; simpl.
  - rewrite decide_True by done. done.
  - apply not_elem_of_cons in Hp as [Hc Hp].
    rewrite decide_False by done. rewrite IH by done. done.
Qed.

Lemma py_split1_nonempty (sep : codepoint) (s : pystr) : py_split1 sep s ≠ [].
Proof.
  destruct s as [|c r]; simpl; [done|].
  case_decide; [done|]. by destruct (py_split1 sep r).
Qed.

Lemma parse_label_hyphen (p t : pystr) :
  HYPHEN ∉ p -> parse_label (p ++ HYPHEN :: t) = (p, t).
Proof.
  intros Hp. unfold parse_label, py_contains.
  rewrite bool_decide_eq_true_2 by (apply elem_of_app; right; left).
  by rewrite py_split1_hyphen.
Qed.

Lemma parse_label_plain (l : pystr) :
  HYPHEN ∉ l -> parse_label l = (py "B", l).
Proof.
  intros Hl. unfold parse_label, py_contains.
  by rewrite bool_decide_eq_false_2.
Qed.

(** The unpacking [prefix, tag = ...] never fails: the sliced list has
    exactly two elements. *)
Lemma parse_label_unpack (l : pystr) :
  length (take 2 (py_split1 HYPHEN l ++ [[]])) = 2%nat.
Proof.
  pose proof (py_split1_nonempty HYPHEN l) as H.
  destruct (py_split1 HYPHEN l) as [|a [|b r]]; done.
Qed.

(** ** The decoder as a function of the rows *)

Lemma flush_frame (d : decoder) :
  flush d =
  {| entities := entities d ++ entities (flush {| entities := []; current := current d |});
     current := None |}.
Proof.
  destruct d as [es [c|]]; unfold flush; simpl; [done|].
  by rewrite app_nil_r.
Qed.

Lemma decode_step_frame (d : decoder) (r : row) :
  let d0 := decode_step {| entities := []; current := current d |} r in
  decode_step d r = {| entities := entities d ++ entities d0; current := current d0 |}.
Proof.
  destruct d as [es cur]. unfold decode_step. simpl.
  case_decide.
  - rewrite (flush_frame {| entities := es; current := cur |}). simpl.
    by destruct cur.
  - destruct (parse_label (r_label r)) as [prefix tag].
    destruct cur as [c|]; simpl.
    + destruct (bool_decide (prefix = py "B") || bool_decide (cur_label c ≠ tag));
        simpl; [done|]. by rewrite app_nil_r.
    + by rewrite app_nil_r.
Qed.

Lemma fold_decode_emit (rows : list row) (d : decoder) :
  entities (flush (fold_left decode_step rows d)) = entities d ++ emit (current d) rows.
Proof.
  revert d. induction rows as [|r rs IH]; intros d; simpl.
  - by rewrite flush_frame.
  - rewrite IH, (decode_step_frame d r). simpl. by rewrite app_assoc.
Qed.

Lemma decode_entities_emit tokens spans labels scores :
  decode_entities tokens spans labels scores = emit None (zip4 tokens spans labels scores).
Proof. unfold decode_entities. by rewrite fold_decode_emit. Qed.

Lemma emit_app (rows1 rows2 : list row) (cur : option span_acc) :
  emit cur (rows1 ++ rows2) =
  let d := fold_left decode_step rows1 {| entities := []; current := cur |} in
  entities d ++ emit (current d) rows2.
Proof.
  revert cur. induction rows1 as [|r rs IH]; intros cur; simpl; [done|].
  rewrite IH. simpl.
  set (d := decode_step _ r).
  assert (forall l d1, fold_left decode_step l d1 =
     let d2 := fold_left decode_step l {| entities := []; current := current d1 |} in
     {| entities := entities d1 ++ entities d2; current := current d2 |}) as Hf.
  { clear. induction l as [|x l IHl]; intros d1; simpl.
    - destruct d1; simpl. by rewrite app_nil_r.
    - rewrite IHl. rewrite (IHl (decode_step {| entities := []; current := current d1 |} x)).
      rewrite (decode_step_frame d1 x). simpl. by rewrite app_assoc. }
  rewrite (Hf rs d). simpl. by rewrite app_assoc.
Qed.

(** ** The decoding scenario *)

Example scenario_tokenized :
  ws_tokens_with_spans (py "ចន ធី រស់ នៅ ភ្នំពេញ") =
  (scenario_tokens, [(0, 2); (3, 5); (6, 9); (10, 12); (13, 20)]).
Proof. reflexivity. Qed.

(** Both summation algorithms of CPython give the same sum of the two
    scores of the first entity. *)
Example scenario_sum_same : py_sum [0.9; 0.8]%float = py_sum_compensated [0.9; 0.8]%float.
Proof. vm_compute. reflexivity. Qed.

(** The mean of the first two scores is the float next above 0.85. *)
Example scenario_score_next_up :
  mean_score [0.9; 0.8]%float = PrimFloat.next_up 0.85%float.
Proof. vm_compute. reflexivity. Qed.

(** C1 (as the code computes it): on the five tokens of the scenario, with
    any spans, the decoder returns the entity "ចន ធី" of type PER from the
    start of token 0 to the end of token 1, then the entity "ភ្នំពេញ" of
    type LOC on the span of token 4; the scores are the binary64 means,
    0.8500000000000001 for the first and 0.95 for the second. *)
Theorem decode_scenario (s0 s1 s2 s3 s4 : Z * Z) :
  decode_entities scenario_tokens [s0; s1; s2; s3; s4] scenario_labels scenario_scores =
  [ {| ent_text := py "ចន ធី"; ent_label := py "PER";
       ent_score := 0.8500000000000001%float;
       ent_start := s0.1; ent_end := s1.2 |};
    {| ent_text := py "ភ្នំពេញ"; ent_label := py "LOC";
       ent_score := 0.95%float;
       ent_start := s4.1; ent_end := s4.2 |} ].
Proof. vm_compute. reflexivity. Qed.

(** C1 (as stated): the score of the first entity is not the float 0.85;
    it is the next float above. *)
Lemma decode_scenario_score_counterexample :
  decode_entities scenario_tokens [(0, 2); (3, 5); (6, 9); (10, 12); (13, 20)]
                  scenario_labels scenario_scores <>
  [ {| ent_text := py "ចន ធី"; ent_label := py "PER"; ent_score := 0.85%float;
       ent_start := 0; ent_end := 5 |};
    {| ent_text := py "ភ្នំពេញ"; ent_label := py "LOC"; ent_score := 0.95%float;
       ent_start := 13; ent_end := 20 |} ].
Proof.
  intros H.
  apply (f_equal (fun l => (fun e => Prim2SF (ent_score e)) <$> head l)) in H.
  vm_compute in H. discriminate H.
Qed.

(** ** One step of the decoder *)

Lemma decode_step_fresh (d : decoder) (r : row) (prefix tag : pystr) :
  r_label r <> py "O" ->
  parse_label (r_label r) = (prefix, tag) ->
  (forall c, current d = Some c -> prefix = py "B" \/ cur_label c <> tag) ->
  decode_step d r =
  {| entities := entities (flush d); current := Some (begin_span r tag) |}.
Proof.
  intros HO Hp Hc. unfold decode_step.
  rewrite decide_False by done. rewrite Hp.
  destruct (current d) as [c|] eqn:E; [|done].
  destruct (Hc c eq_refl) as [->|Hne].
  - by rewrite bool_decide_eq_true_2.
  - rewrite (bool_decide_eq_true_2 (cur_label c ≠ tag)) by done.
    by rewrite orb_true_r.
Qed.

Lemma decode_step_extend (d : decoder) (r : row) (c : span_acc) (prefix : pystr) :
  r_label r <> py "O" ->
  parse_label (r_label r) = (prefix, cur_label c) ->
  prefix <> py "B" ->
  current d = Some c ->
  decode_step d r = {| entities := entities d; current := Some (extend_span c r) |}.
Proof.
  intros HO Hp HB Hc. unfold decode_step.
  rewrite decide_False by done. rewrite Hp, Hc.
  rewrite bool_decide_eq_false_2 by done.
  rewrite bool_decide_eq_false_2 by (intros H; by apply H). done.
Qed.

Lemma label_I_not_O (t : pystr) : py "I-" ++ t <> py "O".
Proof. by destruct t. Qed.

Lemma label_B_not_O (t : pystr) : py "B-" ++ t <> py "O".
Proof. by destruct t. Qed.

Lemma parse_label_I (t : pystr) : parse_label (py "I-" ++ t) = (py "I", t).
Proof. apply (parse_label_hyphen (py "I") t). by intros [?|?%elem_of_nil]%elem_of_cons. Qed.

Lemma parse_label_B (t : pystr) : parse_label (py "B-" ++ t) = (py "B", t).
Proof. apply (parse_label_hyphen (py "B") t). by intros [?|?%elem_of_nil]%elem_of_cons. Qed.
Ltac label_side :=
  try first [ done | apply label_I_not_O | apply label_B_not_O
            | apply parse_label_I | apply parse_label_B ].

(** C2 (as the code does it): for a token labelled I-T, the decoder
    extends the current span when that span has type T (end offset moved,
    score appended, text joined with one space), and otherwise does what
    it does for B-T: it flushes and starts a span of type T with this token
    alone. A label other than "O" without any hyphen starts a span whose
    type is the whole label. A label with a hyphen and a prefix other than
    "B" is handled as I-T. Parsing a label never fails. *)
Theorem decode_step_labels (d : decoder) (r : row) :
  (forall T c, r_label r = py "I-" ++ T -> current d = Some c -> cur_label c = T ->
     decode_step d r =
     {| entities := entities d;
        current := Some {| cur_text := cur_text c ++ [SPACE] ++ r_token r;
                           cur_label := T;
                           cur_scores := cur_scores c ++ [r_score r];
                           cur_start := cur_start c;
                           cur_end := (r_span r).2 |} |}) /\
  (forall T, r_label r = py "I-" ++ T ->
     (forall c, current d = Some c -> cur_label c <> T) ->
     decode_step d r =
       {| entities := entities (flush d); current := Some (begin_span r T) |} /\
     decode_step d r = decode_step d (with_label r (py "B-" ++ T))) /\
  (r_label r <> py "O" -> HYPHEN ∉ r_label r ->
     decode_step d r =
       {| entities := entities (flush d); current := Some (begin_span r (r_label r)) |}) /\
  (forall P T, r_label r = P ++ HYPHEN :: T -> HYPHEN ∉ P -> P <> py "B" ->
     decode_step d r = decode_step d (with_label r (py "I-" ++ T))) /\
  length (take 2 (py_split1 HYPHEN (r_label r) ++ [[]])) = 2%nat.
Proof.
  assert (forall T c, current d = Some c -> cur_label c = T ->
            decode_step d (with_label r (py "I-" ++ T)) =
            {| entities := entities d; current := Some (extend_span c r) |}) as HI_ext.
  { intros T c Hc <-.
    apply (decode_step_extend d (with_label r (py "I-" ++ cur_label c)) c (py "I"));
      label_side. }
  assert (forall T, (forall c, current d = Some c -> cur_label c <> T) ->
            decode_step d (with_label r (py "I-" ++ T)) =
            {| entities := entities (flush d); current := Some (begin_span r T) |}) as HI_new.
  { intros T Hc.
    apply (decode_step_fresh d (with_label r (py "I-" ++ T)) (py "I") T); label_side.
    intros c E. right. by apply Hc. }
  assert (forall T, decode_step d (with_label r (py "B-" ++ T)) =
            {| entities := entities (flush d); current := Some (begin_span r T) |}) as HB_new.
  { intros T.
    apply (decode_step_fresh d (with_label r (py "B-" ++ T)) (py "B") T); label_side.
    intros c E. by left. }
  assert (forall T, r_label r = py "I-" ++ T -> with_label r (py "I-" ++ T) = r) as Hsame.
  { intros T E. destruct r. simpl in E. by subst. }
  split; [|split; [|split; [|split]]].
  - intros T c HL Hc HT. pose proof (HI_ext T c Hc HT) as H1.
    rewrite (Hsame T HL) in H1. rewrite H1. unfold extend_span. by rewrite HT.
  - intros T HL Hc. pose proof (HI_new T Hc) as H1.
    rewrite (Hsame T HL) in H1. split; [exact H1|]. by rewrite H1, HB_new.
  - intros HO Hh. apply (decode_step_fresh d r (py "B") (r_label r)); try done.
    + by apply parse_label_plain.
    + intros c Hc. by left.
  - intros P T HL HP HB.
    assert (r_label r <> py "O") as HO.
    { rewrite HL. intros E. apply (f_equal (fun s => bool_decide (HYPHEN ∈ s))) in E.
      rewrite bool_decide_eq_true_2 in E by (apply elem_of_app; right; left).
      vm_compute in E. discriminate E. }
    assert (parse_label (r_label r) = (P, T)) as Hp
      by (rewrite HL; by apply parse_label_hyphen).
    destruct (current d) as [c|] eqn:Ec.
    + destruct (decide (cur_label c = T)) as [E|Hne].
      * rewrite (HI_ext T c eq_refl E). subst T. by apply (decode_step_extend d r c P).
      * rewrite HI_new by congruence.
        apply (decode_step_fresh d r P T); try done. intros c' Hc'. right. congruence.
    + rewrite HI_new by (intros c' Hc'; congruence).
      apply (decode_step_fresh d r P T); try done. intros c' Hc'. congruence.
  - apply parse_label_unpack.
Qed.

Lemma decode_step_labels_witness :
  decode_step acc_loc (with_label row_x_loc (py "I-LOC")) =
  {| entities := [];
     current := Some {| cur_text := py "a b"; cur_label := py "LOC";
                        cur_scores := [0.5; 0.5]%float;
                        cur_start := 0; cur_end := 3 |} |}.
Proof.
  exact (proj1 (decode_step_labels acc_loc (with_label row_x_loc (py "I-LOC")))
               (py "LOC") _ eq_refl eq_refl eq_refl).
Defined.

(** C2 (as stated): a label without a recognised B-/I- prefix does not
    always start a new span. With a LOC span being accumulated, the label
    "X-LOC" extends it. *)
Lemma decode_step_unrecognized_prefix_counterexample :
  r_label row_x_loc <> py "O" /\
  ~ starts_with (py "B-") (r_label row_x_loc) /\
  ~ starts_with (py "I-") (r_label row_x_loc) /\
  decode_step acc_loc row_x_loc =
    {| entities := [];
       current := Some {| cur_text := py "a b"; cur_label := py "LOC";
                          cur_scores := [0.5; 0.5]%float;
                          cur_start := 0; cur_end := 3 |} |} /\
  (forall T, decode_step acc_loc row_x_loc <>
     {| entities := entities (flush acc_loc); current := Some (begin_span row_x_loc T) |}) /\
  decode_entities [py "a"; py "b"] [(0, 1); (2, 3)] [py "B-LOC"; py "X-LOC"]
                  [0.5; 0.5]%float =
    [ {| ent_text := py "a b"; ent_label := py "LOC"; ent_score := 0.5%float;
         ent_start := 0; ent_end := 3 |} ].
Proof.
  split; [|split; [|split; [|split; [|split]]]].
  - intros H. vm_compute in H. discriminate H.
  - intros [s H]. vm_compute in H. discriminate H.
  - intros [s H]. vm_compute in H. discriminate H.
  - vm_compute. reflexivity.
  - intros T H. apply (f_equal (fun x => length (entities x))) in H.
    vm_compute in H. discriminate H.
  - vm_compute. reflexivity.
Qed.

(** ** Order of the emitted spans *)

Lemma chain_weaken (a b a' b' : Z) (l : list (Z * Z)) :
  a' <= a -> b' <= b -> chain a b l -> chain a' b' l.
Proof. destruct l as [|p r]; simpl; [done|]. intros ? ? (? & ? & ? & ?). repeat split; try lia. done. Qed.

Lemma chain_of_sorted (p : Z * Z) (l : list (Z * Z)) :
  Forall span_wf (p :: l) -> Sorted span_before (p :: l) -> chain p.1 p.2 l.
Proof.
  revert p. induction l as [|q r IH]; intros p Hwf Hs; simpl; [done|].
  apply Forall_cons_1 in Hwf as [Hp Hwf].
  apply Sorted_inv in Hs as [Hs Hh]. apply HdRel_inv in Hh as [? ?].
  pose proof (Forall_inv Hwf) as Hq. unfold span_wf in *.
  repeat split; try lia. by apply IH.
Qed.

Lemma chain_all_after (s e : Z) (l : list (Z * Z)) :
  s <= e -> chain s e l -> Forall (fun q => e <= q.1 /\ s < q.1) l.
Proof.
  revert s e. induction l as [|q r IH]; intros s e Hse H; constructor; simpl in H.
  - lia.
  - destruct H as (? & ? & ? & Hr).
    apply (IH s e Hse). apply (chain_weaken q.1 q.2); [lia|lia|done].
Qed.

Lemma chain_strongly_sorted (a b : Z) (l : list (Z * Z)) :
  chain a b l -> Forall span_wf l /\ StronglySorted span_before l.
Proof.
  revert a b. induction l as [|p r IH]; intros a b H; simpl in H.
  - split; constructor.
  - destruct H as (Ha & Hb & Hp & Hr). destruct (IH _ _ Hr) as [Hwf Hss].
    split; [by constructor|]. constructor; [done|].
    exact (chain_all_after p.1 p.2 r Hp Hr).
Qed.

Lemma emit_chain (rows : list row) (cur : option span_acc) (a b : Z) :
  chain_from a b cur (map r_span rows) -> chain a b (map ent_span (emit cur rows)).
Proof.
  revert cur a b. induction rows as [|r rs IH]; intros cur a b H.
  - destruct cur as [c|]; simpl in *; [|done]. tauto.
  - cbn [emit]. unfold decode_step. cbn [current entities].
    case_decide as HO.
    + destruct cur as [c|]; cbn [flush current entities chain_from map] in *.
      * simpl. destruct H as (? & ? & ? & ? & ? & ? & Hr). repeat split; try done.
        apply (IH None). simpl. apply (chain_weaken (r_span r).1 (r_span r).2); [lia|lia|done].
      * simpl. simpl in H. destruct H as (? & ? & ? & Hr).
        apply (IH None). simpl. apply (chain_weaken (r_span r).1 (r_span r).2); [lia|lia|done].
    + destruct (parse_label (r_label r)) as [prefix tag].
      destruct cur as [c|]; cbn [chain_from map chain] in H.
      * destruct H as (? & ? & ? & ? & ? & ? & Hr).
        destruct (bool_decide (prefix = py "B") || bool_decide (cur_label c ≠ tag)).
        -- cbn [flush current entities]. simpl. repeat split; try done.
           apply IH. simpl. repeat split; try done.
        -- cbn [current entities]. simpl. apply IH. simpl. repeat split; try lia.
           apply (chain_weaken (r_span r).1 (r_span r).2); [lia|lia|done].
      * destruct H as (? & ? & ? & Hr). cbn [flush current entities]. simpl.
        apply IH. simpl. repeat split; try done.
Qed.

Lemma zip4_spans_prefix tokens spans labels scores :
  exists rest, spans = map r_span (zip4 tokens spans labels scores) ++ rest.
Proof.
  revert spans labels scores.
  induction tokens as [|t ts IH]; intros spans labels scores; simpl; [by eexists|].
  destruct spans as [|s ss]; [by eexists|].
  destruct labels as [|l ls]; [by eexists|].
  destruct scores as [|c cs]; [by eexists|].
  destruct (IH ss ls cs) as [rest E]. exists rest. simpl. by rewrite <- E.
Qed.

Lemma sorted_app_l {A} (R : A -> A -> Prop) (l1 l2 : list A) :
  Sorted R (l1 ++ l2) -> Sorted R l1.
Proof.
  induction l1 as [|x l1 IH]; intros H; [constructor|].
  simpl in H. apply Sorted_inv in H as [H Hh]. constructor; [by apply IH|].
  destruct l1; [constructor|]. simpl in Hh. apply HdRel_inv in Hh. by constructor.
Qed.

(** C7: when the token spans are well formed and go from left to right
    without overlap, so do the spans of the entities that the decoder
    returns: every entity ends at or after its start, and every entity
    ends before, and starts strictly before, each later one. *)
Theorem decode_entities_ordered tokens spans labels scores :
  Forall span_wf spans ->
  Sorted span_before spans ->
  let ents := decode_entities tokens spans labels scores in
  Forall (fun e => ent_start e <= ent_end e) ents /\
  StronglySorted (fun e1 e2 => ent_end e1 <= ent_start e2 /\ ent_start e1 < ent_start e2)
                 ents.
Proof.
  intros Hwf Hs ents.
  destruct (zip4_spans_prefix tokens spans labels scores) as [rest E].
  assert (exists a b, chain a b (map ent_span ents)) as (a & b & Hc).
  { subst ents. rewrite decode_entities_emit.
    rewrite E in Hwf, Hs. apply Forall_app in Hwf as [Hwf _]. apply sorted_app_l in Hs.
    destruct (zip4 tokens spans labels scores) as [|r rs] eqn:Er.
    - exists 0, 0. done.
    - exists ((r_span r).1 - 1), (r_span r).1.
      apply (emit_chain (r :: rs) None). cbn [chain_from map chain].
      pose proof (Forall_inv Hwf) as Hr. unfold span_wf in Hr.
      repeat split; try lia. by apply chain_of_sorted. }
  apply chain_strongly_sorted in Hc as [H1 H2]. clearbody ents. split.
  - clear -H1. induction ents as [|e es IH]; [constructor|].
    simpl in H1. apply Forall_cons_1 in H1 as [He H1]. constructor; [exact He|by apply IH].
  - clear -H2. induction ents as [|e es IH]; [constructor|].
    simpl in H2. apply StronglySorted_inv in H2 as [H2 H3].
    constructor; [by apply IH|].
    clear -H3. induction es as [|e' es IH]; [constructor|].
    simpl in H3. apply Forall_cons_1 in H3 as [He H3]. constructor; [exact He|by apply IH].
Qed.

Lemma decode_entities_ordered_witness :
  Forall (fun e => ent_start e <= ent_end e)
         (decode_entities scenario_tokens [(0, 2); (3, 5); (6, 9); (10, 12); (13, 20)]
                          scenario_labels scenario_scores) /\
  StronglySorted (fun e1 e2 => ent_end e1 <= ent_start e2 /\ ent_start e1 < ent_start e2)
         (decode_entities scenario_tokens [(0, 2); (3, 5); (6, 9); (10, 12); (13, 20)]
                          scenario_labels scenario_scores).
Proof.
  apply (decode_entities_ordered scenario_tokens
           [(0, 2); (3, 5); (6, 9); (10, 12); (13, 20)] scenario_labels scenario_scores).
  - repeat constructor; unfold span_wf; simpl; lia.
  - repeat constructor; unfold span_before; simpl; lia.
Defined.

(** The spans of the tokenizer satisfy the hypotheses of the theorem. *)
Lemma ws_scan_chain (s : pystr) (i : Z) (run : option (Z * pystr)) (a b : Z) :
  match run with
  | None => a < i /\ b <= i
  | Some (st, _) => a < st /\ b <= st /\ st < i
  end ->
  chain a b (map snd (ws_scan i run s)).
Proof.
  revert i run a b. induction s as [|c r IH]; intros i run a b H.
  - destruct run as [[st tok]|]; simpl; [|done]. repeat split; lia.
  - cbn [ws_scan]. destruct (py_isspace c), run as [[st tok]|].
    + simpl. repeat split; try lia. apply IH. lia.
    + apply IH. lia.
    + apply IH. lia.
    + apply IH. lia.
Qed.

Lemma ws_spans_ordered (text : pystr) :
  Forall span_wf (ws_tokens_with_spans text).2 /\
  Sorted span_before (ws_tokens_with_spans text).2.
Proof.
  unfold ws_tokens_with_spans. simpl.
  destruct (chain_strongly_sorted (-1) 0 (map snd (ws_scan 0 None text))) as [H1 H2].
  - apply ws_scan_chain. lia.
  - split; [done|]. by apply StronglySorted_Sorted.
Qed.

(** ** Class indices without a label *)

Lemma zip4_app ts1 ss1 ls1 cs1 ts2 ss2 ls2 cs2 :
  length ts1 = length ls1 -> length ss1 = length ls1 -> length cs1 = length ls1 ->
  zip4 (ts1 ++ ts2) (ss1 ++ ss2) (ls1 ++ ls2) (cs1 ++ cs2) =
  zip4 ts1 ss1 ls1 cs1 ++ zip4 ts2 ss2 ls2 cs2.
Proof.
  revert ss1 ls1 cs1. induction ts1 as [|t ts1 IH]; intros ss1 ls1 cs1 H1 H2 H3.
  - destruct ls1; [|done]. destruct ss1; [|done]. by destruct cs1.
  - destruct ls1 as [|l ls1]; [done|]. destruct ss1 as [|s ss1]; [done|].
    destruct cs1 as [|c cs1]; [done|]. simpl in *. f_equal. apply IH; congruence.
Qed.

Lemma emit_outside_row (rows1 rows2 : list row) (r : row) :
  r_label r = py "O" ->
  emit None (rows1 ++ r :: rows2) = emit None rows1 ++ emit None rows2.
Proof.
  intros HO. rewrite emit_app. cbn zeta.
  set (d := fold_left decode_step rows1 _).
  cbn [emit]. unfold decode_step at 1 2. rewrite decide_True by done.
  cbn [current].
  assert (emit None rows1 = entities (flush d)) as ->.
  { subst d. by rewrite fold_decode_emit. }
  rewrite (flush_frame d). cbn [entities current].
  rewrite <- app_assoc. f_equal.
  by destruct (current d).
Qed.

(** C10: a predicted class index that is not a key of [id2label] gets the
    label "O"; the token at that position is in no entity: the result is
    the entities decoded from the tokens before it, followed by the
    entities decoded from the tokens after it. *)
Theorem unknown_class_is_outside (i2l : gmap pystr pystr)
    (ids1 ids2 : list nat) (idx : nat)
    (toks1 toks2 : list pystr) (tok : pystr)
    (sps1 sps2 : list (Z * Z)) (sp : Z * Z)
    (scs1 scs2 : list float) (sc : float) :
  i2l !! py_str (Z.of_nat idx) = None ->
  length toks1 = length ids1 -> length sps1 = length ids1 -> length scs1 = length ids1 ->
  labels_of i2l (ids1 ++ idx :: ids2) = labels_of i2l ids1 ++ py "O" :: labels_of i2l ids2 /\
  decode_entities (toks1 ++ tok :: toks2) (sps1 ++ sp :: sps2)
                  (labels_of i2l (ids1 ++ idx :: ids2)) (scs1 ++ sc :: scs2) =
  decode_entities toks1 sps1 (labels_of i2l ids1) scs1 ++
  decode_entities toks2 sps2 (labels_of i2l ids2) scs2.
Proof.
  intros Hnone Ht Hs Hc.
  assert (labels_of i2l (ids1 ++ idx :: ids2) =
          labels_of i2l ids1 ++ py "O" :: labels_of i2l ids2) as HL.
  { unfold labels_of. rewrite map_app. simpl. by rewrite Hnone. }
  split; [exact HL|].
  rewrite !decode_entities_emit, HL.
  rewrite zip4_app by (unfold labels_of; rewrite ?length_map; congruence).
  simpl. by apply emit_outside_row.
Qed.

Lemma unknown_class_is_outside_witness :
  decode_entities ([py "a"] ++ py "b" :: [py "c"]) ([(0, 1)] ++ (2, 3) :: [(4, 5)])
     (labels_of {[ py "0" := py "B-LOC" ]} ([0%nat] ++ 7%nat :: [0%nat]))
     ([0.5%float] ++ 0.75%float :: [0.5%float]) =
  decode_entities [py "a"] [(0, 1)] (labels_of {[ py "0" := py "B-LOC" ]} [0%nat]) [0.5%float] ++
  decode_entities [py "c"] [(4, 5)] (labels_of {[ py "0" := py "B-LOC" ]} [0%nat]) [0.5%float].
Proof.
  apply (unknown_class_is_outside {[ py "0" := py "B-LOC" ]} [0%nat] [0%nat] 7%nat
           [py "a"] [py "c"] (py "b") [(0, 1)] [(4, 5)] (2, 3)
           [0.5%float] [0.5%float] 0.75%float); reflexivity.
Defined.

(** ** Character vocabulary *)

Section Vocabulary.

Variable nfc : pystr -> pystr.

Lemma elem_of_add_word_chars (chars : gset N) (w : pystr) (c : N) :
  c ∈ add_word_chars nfc chars w <->
  c ∈ chars \/ (c ∈ normalize_text nfc w /\ py_isspace c = false).
Proof.
  unfold add_word_chars. generalize (normalize_text nfc w). intros l.
  revert chars. induction l as [|x l IH]; intros chars; simpl.
  - split; [auto|]. intros [?|[H _]]; [done|]. by apply elem_of_nil in H.
  - rewrite IH. destruct (py_isspace x) eqn:Ex; simpl.
    + split.
      * intros [?|[? ?]]; [by left|]. right. split; [by right|done].
      * intros [?|[Hc ?]]; [by left|]. apply elem_of_cons in Hc as [E|?].
        -- congruence.
        -- by right.
    + rewrite elem_of_union, elem_of_singleton. split.
      * intros [[?| ->]|[? ?]]; [by left| |].
        -- right. split; [by left|done].
        -- right. split; [by right|done].
      * intros [?|[Hc ?]]; [by left; left|]. apply elem_of_cons in Hc as [E|?].
        -- by left; right.
        -- by right.
Qed.

Lemma elem_of_collect_chars (words : list pystr) (c : N) :
  c ∈ collect_chars nfc words <->
  py_isspace c = false /\ exists w, w ∈ words /\ c ∈ normalize_text nfc w.
Proof.
  unfold collect_chars.
  assert (forall acc, c ∈ fold_left (add_word_chars nfc) words acc <->
            c ∈ acc \/ (py_isspace c = false /\
                        exists w, w ∈ words /\ c ∈ normalize_text nfc w)) as H.
  { induction words as [|w ws IH]; intros acc; simpl.
    - split; [auto|]. intros [?|[_ (w & Hw & _)]]; [done|]. by apply elem_of_nil in Hw.
    - rewrite IH, elem_of_add_word_chars. split.
      + intros [[?|[? ?]]|[? (w' & ? & ?)]]; [by left| |].
        * right. split; [done|]. exists w. split; [by left|done].
        * right. split; [done|]. exists w'. split; [by right|done].
      + intros [?|[? (w' & Hw & ?)]]; [by left; left|].
        apply elem_of_cons in Hw as [E|?].
        * left. right. by subst w'.
        * right. split; [done|]. by exists w'. }
  rewrite H. rewrite elem_of_empty. tauto.
Qed.

Lemma elem_of_py_sorted (chars : gset N) (c : N) : c ∈ py_sorted chars <-> c ∈ chars.
Proof. unfold py_sorted. by rewrite merge_sort_Permutation, elem_of_elements. Qed.

Lemma py_sorted_NoDup (chars : gset N) : NoDup (py_sorted chars).
Proof. unfold py_sorted. rewrite merge_sort_Permutation. apply NoDup_elements. Qed.

Lemma py_sorted_strict (chars : gset N) : StronglySorted N.lt (py_sorted chars).
Proof.
  pose proof (py_sorted_NoDup chars) as Hnd.
  assert (StronglySorted N.le (py_sorted chars)) as Hs
    by (unfold py_sorted; apply StronglySorted_merge_sort; apply _).
  induction Hs as [|x l Hs IH Hx]; [constructor|].
  apply NoDup_cons in Hnd as [Hx' Hnd]. constructor; [by apply IH|].
  apply Forall_forall. intros y Hy.
  pose proof (proj1 (Forall_forall _ _) Hx y Hy).
  assert (x <> y) by (intros ->; done). lia.
Qed.

Lemma lookup_dict_of_pairs (pairs : list (Z * pystr)) (d : gmap pystr Z) (k : pystr) (v : Z) :
  NoDup (snd <$> pairs) ->
  fold_left (fun d p => <[p.2 := p.1]> d) pairs d !! k = Some v <->
  (v, k) ∈ pairs \/ ((k ∉ snd <$> pairs) /\ d !! k = Some v).
Proof.
  revert d. induction pairs as [|[i c] ps IH]; intros d Hnd; simpl.
  - split; [intros; right; split; [apply not_elem_of_nil|done]|].
    intros [H|[_ ?]]; [by apply elem_of_nil in H|done].
  - simpl in Hnd. apply NoDup_cons in Hnd as [Hc Hnd]. rewrite (IH _ Hnd). simpl.
    rewrite elem_of_cons, not_elem_of_cons. split.
    + intros [?|[Hk Hl]]; [by left; right|].
      destruct (decide (c = k)) as [ -> |Hne].
      * rewrite lookup_insert_eq in Hl. left. left. congruence.
      * rewrite lookup_insert_ne in Hl by done. right. done.
    + intros [[E|?]|[[Hk1 Hk2] Hl]]; [|by left|].
      * injection E as -> ->. right. split; [done|]. by rewrite lookup_insert_eq.
      * right. split; [done|]. by rewrite lookup_insert_ne.
Qed.

Lemma elem_of_enumerate {A} (l : list A) (i : Z) (x : A) :
  (i, x) ∈ enumerate l <-> exists n : nat, i = Z.of_nat n /\ l !! n = Some x.
Proof.
  unfold enumerate. rewrite elem_of_lookup_imap. split.
  - intros (n & y & E & Hy). injection E as -> ->. by exists n.
  - intros (n & -> & Hn). by exists n, x.
Qed.

Lemma enumerate_snd {A} (l : list A) : (snd <$> enumerate l) = l.
Proof.
  unfold enumerate. rewrite fmap_imap.
  rewrite (imap_ext _ (fun _ x => x)) by done.
  induction l as [|x l IH]; [done|]. rewrite imap_cons. f_equal. exact IH.
Qed.

Lemma idx2char_NoDup (words : list pystr) : NoDup (idx2char_of nfc words).
Proof.
  unfold idx2char_of. simpl.
  assert (forall l : list N, (PAD ∉ map (fun c => [c]) l) /\ (UNK ∉ map (fun c => [c]) l)) as Hl.
  { induction l as [|x l [IH1 IH2]]; simpl.
    - split; apply not_elem_of_nil.
    - split; apply not_elem_of_cons; split; done. }
  destruct (Hl (py_sorted (collect_chars nfc words))) as [H1 H2].
  constructor; [|constructor].
  - apply not_elem_of_cons. split; [done|exact H1].
  - exact H2.
  - change (NoDup ((fun c : N => [c]) <$> py_sorted (collect_chars nfc words))).
    apply NoDup_fmap_2; [|apply py_sorted_NoDup]. by intros x y [= ->].
Qed.

Lemma lookup_build_char_vocab (words : list pystr) (k : pystr) (v : Z) :
  build_char_vocab nfc words !! k = Some v <->
  exists n : nat, v = Z.of_nat n /\ idx2char_of nfc words !! n = Some k.
Proof.
  unfold build_char_vocab, dict_of_pairs.
  rewrite lookup_dict_of_pairs by (rewrite enumerate_snd; apply idx2char_NoDup).
  rewrite elem_of_enumerate, lookup_empty. split; [|by left].
  intros [?|[_ ?]]; done.
Qed.

Lemma build_char_vocab_PAD (words : list pystr) :
  build_char_vocab nfc words !! PAD = Some 0.
Proof. apply lookup_build_char_vocab. by exists 0%nat. Qed.

Lemma build_char_vocab_UNK (words : list pystr) :
  build_char_vocab nfc words !! UNK = Some 1.
Proof. apply lookup_build_char_vocab. by exists 1%nat. Qed.

Lemma build_char_vocab_char (words : list pystr) (i : nat) (c : N) :
  py_sorted (collect_chars nfc words) !! i = Some c ->
  build_char_vocab nfc words !! [c] = Some (2 + Z.of_nat i).
Proof.
  intros Hi. apply lookup_build_char_vocab. exists (S (S i)). split; [lia|].
  unfold idx2char_of. simpl.
  change (((fun c : N => [c]) <$> py_sorted (collect_chars nfc words)) !! i = Some [c]).
  by rewrite list_lookup_fmap, Hi.
Qed.

Lemma build_char_vocab_inv (words : list pystr) (k : pystr) (v : Z) :
  build_char_vocab nfc words !! k = Some v ->
  (k = PAD /\ v = 0) \/ (k = UNK /\ v = 1) \/
  exists (i : nat) c,
    k = [c] /\ py_sorted (collect_chars nfc words) !! i = Some c /\ v = 2 + Z.of_nat i.
Proof.
  intros (n & -> & Hn)%lookup_build_char_vocab.
  unfold idx2char_of in Hn.
  destruct n as [|[|n]]; simpl in Hn.
  - left. by injection Hn as <-.
  - right. left. by injection Hn as <-.
  - right. right.
    change (((fun c : N => [c]) <$> py_sorted (collect_chars nfc words)) !! n = Some k) in Hn.
    rewrite list_lookup_fmap in Hn.
    destruct (py_sorted (collect_chars nfc words) !! n) as [c|] eqn:Ec; [|done].
    injection Hn as <-. exists n, c. repeat split; [done|lia].
Qed.

(** C5: the vocabulary maps PAD to 0 and UNK to 1; the other keys are the
    distinct non-blank characters of the normalized words, and the
    character at position i of their strictly increasing list has id 2+i.
    Nothing else is a key. The vocabulary is a function of the word list
    (and of nothing else, such as the iteration order of a set). *)
Theorem build_char_vocab_ids (words : list pystr) :
  let vocab := build_char_vocab nfc words in
  let chars := py_sorted (collect_chars nfc words) in
  vocab !! PAD = Some 0 /\
  vocab !! UNK = Some 1 /\
  StronglySorted N.lt chars /\
  (forall c, c ∈ chars <->
     py_isspace c = false /\ exists w, w ∈ words /\ c ∈ normalize_text nfc w) /\
  (forall (i : nat) c, chars !! i = Some c -> vocab !! [c] = Some (2 + Z.of_nat i)) /\
  (forall k v, vocab !! k = Some v ->
     (k = PAD /\ v = 0) \/ (k = UNK /\ v = 1) \/
     exists (i : nat) c, k = [c] /\ chars !! i = Some c /\ v = 2 + Z.of_nat i).
Proof.
  intros vocab chars. subst vocab chars.
  split; [|split; [|split; [|split; [|split]]]].
  - apply build_char_vocab_PAD.
  - apply build_char_vocab_UNK.
  - apply py_sorted_strict.
  - intros c. by rewrite elem_of_py_sorted, elem_of_collect_chars.
  - apply build_char_vocab_char.
  - apply build_char_vocab_inv.
Qed.

(** The vocabulary does not depend on the order of the words. *)
Lemma build_char_vocab_perm (words words' : list pystr) :
  words ≡ₚ words' -> build_char_vocab nfc words = build_char_vocab nfc words'.
Proof.
  intros Hp. unfold build_char_vocab, idx2char_of.
  assert (collect_chars nfc words = collect_chars nfc words') as ->; [|done].
  apply set_eq. intros c. rewrite !elem_of_collect_chars.
  split; intros [? (w & Hw & ?)]; (split; [done|]); exists w; split; try done.
  - by rewrite <- Hp.
  - by rewrite Hp.
Qed.


(** ** Word encoder *)

Lemma lookup_char_vocab (words : list pystr) (ch : N) :
  exists v, lookup_char (build_char_vocab nfc words) ch = Some v /\ v <> 0 /\
            v = default 1 (build_char_vocab nfc words !! [ch]).
Proof.
  pose proof (build_char_vocab_UNK words) as HU.
  pose proof (build_char_vocab_inv words) as Hk.
  unfold lookup_char. rewrite HU. simpl.
  exists (default 1 (build_char_vocab nfc words !! [ch])). split; [done|]. split; [|done].
  destruct (build_char_vocab nfc words !! [ch]) as [v|] eqn:E; simpl; [|lia].
  destruct (Hk _ _ E) as [[H _]|[[H _]|(i & c & _ & _ & ->)]]; [| |lia];
    apply (f_equal length) in H; vm_compute in H; discriminate H.
Qed.

Lemma mapM_lookup_char (words : list pystr) (l : pystr) :
  exists ids, mapM (lookup_char (build_char_vocab nfc words)) l = Some ids /\
    length ids = length l /\
    forall (i : nat) c, l !! i = Some c ->
      ids !! i = Some (default 1 (build_char_vocab nfc words !! [c])) /\
      default 1 (build_char_vocab nfc words !! [c]) <> 0.
Proof.
  induction l as [|c l (ids & E & Hlen & Hi)]; simpl.
  - exists []. split; [done|]. split; [done|]. intros j c' Hc. by rewrite lookup_nil in Hc.
  - destruct (lookup_char_vocab words c) as (v & Ev & Hv & Hd).
    exists (v :: ids). rewrite Ev, E. simpl. split; [done|]. split; [by rewrite Hlen|].
    intros [|j] c' Hc'; simpl in *.
    + injection Hc' as <-. rewrite <- Hd. done.
    + by apply Hi.
Qed.

(** C4: for a vocabulary made by [build_char_vocab], encoding never fails
    and gives exactly MAX_WORD_LEN ids; the id at a position is PAD (0)
    exactly when the position is at or beyond [true_char_len] of the word;
    below it, the id is the one of the character there, or UNK (1). *)
Theorem encode_word_fixed_width (words : list pystr) (word : pystr) :
  let vocab := build_char_vocab nfc words in
  exists ids,
    encode_word nfc word vocab = Some ids /\
    len ids = MAX_WORD_LEN /\
    (forall (i : nat) x, ids !! i = Some x ->
       (x = 0 <-> true_char_len nfc word <= Z.of_nat i)) /\
    (forall (i : nat) c, Z.of_nat i < MAX_WORD_LEN ->
       normalize_text nfc word !! i = Some c ->
       ids !! i = Some (default 1 (vocab !! [c]))).
Proof.
  intros vocab. unfold encode_word, true_char_len. subst vocab.
  set (w := normalize_text nfc word).
  assert (0 <= MAX_WORD_LEN) as Hmax by done.
  set (n := Z.to_nat MAX_WORD_LEN). assert (MAX_WORD_LEN = Z.of_nat n) as Hn by lia.
  clearbody n. generalize dependent MAX_WORD_LEN. intros M _ ->.
  destruct (mapM_lookup_char words (take n w)) as (ids & E & Hlen & Hi).
  rewrite E. simpl. rewrite length_take in Hlen.
  pose proof (build_char_vocab_PAD words) as HP.
  assert (forall (i : nat) c, (i < n)%nat -> w !! i = Some c ->
            ids !! i = Some (default 1 (build_char_vocab nfc words !! [c])) /\
            default 1 (build_char_vocab nfc words !! [c]) <> 0) as Hi'.
  { intros i c Hin Hc. apply Hi. by rewrite lookup_take_lt. }
  unfold len in *.
  destruct (Z.ltb_spec (Z.of_nat (length ids)) (Z.of_nat n)) as [Hlt|Hge].
  - rewrite HP. simpl. eexists. split; [done|].
    assert (length ids = length w) as Hw by lia.
    split; [rewrite length_app, length_replicate; lia|]. split.
    + intros i x Hx. destruct (decide (i < length ids)%nat) as [Hin|Hin].
      * rewrite lookup_app_l in Hx by done.
        destruct (lookup_lt_is_Some_2 w i) as [c Hc]; [lia|].
        destruct (Hi' i c) as [E1 E2]; [lia|done|].
        rewrite E1 in Hx. injection Hx as <-. split; [done|lia].
      * rewrite lookup_app_r in Hx by lia.
        apply lookup_replicate in Hx as [-> _]. split; [lia|done].
    + intros i c Hin Hc. rewrite lookup_app_l.
      * apply Hi'; [lia|done].
      * apply lookup_lt_Some in Hc. lia.
  - exists ids. split; [done|]. split; [lia|]. split.
    + intros i x Hx. pose proof (lookup_lt_Some _ _ _ Hx) as Hin.
      destruct (lookup_lt_is_Some_2 w i) as [c Hc]; [lia|].
      destruct (Hi' i c) as [E1 E2]; [lia|done|].
      rewrite E1 in Hx. injection Hx as <-. split; [done|lia].
    + intros i c Hin Hc. apply Hi'; [lia|done].
Qed.

End Vocabulary.

(** ** Order of floats *)

Lemma cmp3_spec (k k' : Z * Z * Z) :
  match cmp3 k k' with
  | Lt => lt3 k k'
  | Eq => k = k'
  | Gt => lt3 k' k
  end.
Proof.
  destruct k as [[a b] c], k' as [[a' b'] c']. unfold cmp3, lt3. simpl.
  destruct (Z.compare_spec a a'); [|lia|lia].
  destruct (Z.compare_spec b b'); [|lia|lia].
  destruct (Z.compare_spec c c'); [congruence|lia|lia].
Qed.

Lemma SFcompare_key (a b : spec_float) :
  a <> S754_nan -> b <> S754_nan ->
  SFcompare a b = Some (cmp3 (sf_key a) (sf_key b)).
Proof.
  intros Ha Hb.
  destruct a as [sa|sa| |sa ma ea], b as [sb|sb| |sb mb eb]; try done;
    try (destruct sa; done); try (destruct sb; done);
    try (destruct sa, sb; done).
  destruct sa, sb; try done.
  unfold SFcompare, cmp3, sf_key; cbn [fst snd].
  change (-1 ?= -1) with Eq. cbv iota.
  rewrite Z.compare_opp, (Z.compare_antisym ea eb).
  destruct (ea ?= eb); done.
Qed.

Lemma not_nan_spec (x : float) : not_nan x -> Prim2SF x <> S754_nan.
Proof.
  unfold not_nan, PrimFloat.is_nan. rewrite FloatAxioms.eqb_spec. intros H E.
  rewrite E in H. done.
Qed.

Ltac key_compare x y :=
  let H := fresh "H" in
  pose proof (cmp3_spec (sf_key (Prim2SF x)) (sf_key (Prim2SF y))) as H; revert H;
  destruct (sf_key (Prim2SF x)) as [[? ?] ?], (sf_key (Prim2SF y)) as [[? ?] ?];
  destruct (cmp3 _ _); unfold lt3; simpl; intros H; split; intros;
  try done; simplify_eq; lia.

Lemma ltb_key (x y : float) :
  not_nan x -> not_nan y -> (PrimFloat.ltb x y = true <-> lt3 (fkey x) (fkey y)).
Proof.
  intros Hx%not_nan_spec Hy%not_nan_spec.
  rewrite ltb_spec. unfold SFltb, fkey. rewrite SFcompare_key by done.
  key_compare x y.
Qed.

Lemma leb_key (x y : float) :
  not_nan x -> not_nan y -> (PrimFloat.leb x y = true <-> ~ lt3 (fkey y) (fkey x)).
Proof.
  intros Hx%not_nan_spec Hy%not_nan_spec.
  rewrite leb_spec. unfold SFleb, fkey. rewrite SFcompare_key by done.
  key_compare x y.
Qed.

Lemma eqb_key (x y : float) :
  not_nan x -> not_nan y -> (PrimFloat.eqb x y = true <-> fkey x = fkey y).
Proof.
  intros Hx%not_nan_spec Hy%not_nan_spec.
  rewrite FloatAxioms.eqb_spec. unfold SFeqb, fkey. rewrite SFcompare_key by done.
  key_compare x y.
Qed.

(** ** The arg-max head *)

Lemma argmax_from_spec (l pre : vec) (bi : nat) (b : float) :
  Forall not_nan pre -> Forall not_nan l -> not_nan b ->
  pre !! bi = Some b ->
  (forall (j : nat) y, pre !! j = Some y -> ~ lt3 (fkey b) (fkey y)) ->
  (forall (j : nat) y, (j < bi)%nat -> pre !! j = Some y -> lt3 (fkey y) (fkey b)) ->
  let i := argmax_from bi b (length pre) l in
  let v := fold_left (fun m y => if PrimFloat.ltb m y then y else m) l b in
  not_nan v /\
  (pre ++ l) !! i = Some v /\
  (forall (j : nat) y, (pre ++ l) !! j = Some y -> ~ lt3 (fkey v) (fkey y)) /\
  (forall (j : nat) y, (j < i)%nat -> (pre ++ l) !! j = Some y -> lt3 (fkey y) (fkey v)).
Proof.
  revert pre bi b. induction l as [|x l IH]; intros pre bi b Hpre Hl Hb Hbi Hle Hlt; simpl.
  - rewrite app_nil_r. done.
  - apply Forall_cons_1 in Hl as [Hx Hl].
    assert (pre ++ x :: l = (pre ++ [x]) ++ l) as -> by (by rewrite <- app_assoc).
    assert (S (length pre) = length (pre ++ [x])) as ->
      by (rewrite length_app; simpl; lia).
    assert (Forall not_nan (pre ++ [x])) as Hpre'
      by (apply Forall_app; split; [done|by constructor]).
    destruct (PrimFloat.ltb b x) eqn:E.
    + apply (ltb_key b x Hb Hx) in E.
      apply IH; try done.
      * by rewrite lookup_app_r, Nat.sub_diag.
      * intros j y Hy. apply lookup_app_Some in Hy as [Hy|[_ Hy]].
        -- specialize (Hle j y Hy). revert E Hle.
           destruct (fkey b) as [[? ?] ?], (fkey x) as [[? ?] ?], (fkey y) as [[? ?] ?].
           unfold lt3. simpl. lia.
        -- apply list_lookup_singleton_Some in Hy as [_ <-].
           destruct (fkey x) as [[? ?] ?]. unfold lt3. simpl. lia.
      * intros j y Hj Hy. rewrite lookup_app_l in Hy by done.
        specialize (Hle j y Hy). revert E Hle.
        destruct (fkey b) as [[? ?] ?], (fkey x) as [[? ?] ?], (fkey y) as [[? ?] ?].
        unfold lt3. simpl. lia.
    + assert (~ lt3 (fkey b) (fkey x)) as E'.
      { intros H. apply (ltb_key b x Hb Hx) in H. congruence. }
      pose proof (lookup_lt_Some _ _ _ Hbi) as Hlen.
      apply IH; try done.
      * by rewrite lookup_app_l.
      * intros j y Hy. apply lookup_app_Some in Hy as [Hy|[_ Hy]]; [by apply (Hle j)|].
        by apply list_lookup_singleton_Some in Hy as [_ <-].
      * intros j y Hj Hy. rewrite lookup_app_l in Hy by lia. by apply (Hlt j).
Qed.

(** C8: on a probability row without NaN, [torch_argmax] returns an index
    whose entry is the value [torch_max] returns; no entry is greater, and
    every entry at a lower index is strictly smaller, so among equal
    maxima the lowest index is the one returned; the label is the entry
    of [id2label] for that index. *)
Theorem argmax_first_maximum (i2l : gmap pystr pystr) (probs : vec) :
  probs <> [] ->
  Forall not_nan probs ->
  exists (i : nat) (v : float),
    torch_argmax probs = Some i /\
    torch_max probs = Some v /\
    probs !! i = Some v /\
    (forall (j : nat) x, probs !! j = Some x -> PrimFloat.leb x v = true) /\
    (forall (j : nat) x, probs !! j = Some x -> (j < i)%nat -> PrimFloat.ltb x v = true) /\
    (forall (j : nat) x, probs !! j = Some x -> PrimFloat.eqb x v = true -> (i <= j)%nat) /\
    labels_of i2l [i] = [default (py "O") (i2l !! py_str (Z.of_nat i))].
Proof.
  intros Hne Hnan. destruct probs as [|p ps]; [done|]. clear Hne.
  apply Forall_cons_1 in Hnan as [Hp Hps].
  destruct (argmax_from_spec ps [p] 0 p) as (Hv & Hi & Hle & Hlt); try done.
  - by constructor.
  - intros [|j] y Hy; [|done]. injection Hy as <-.
    destruct (fkey p) as [[? ?] ?]. unfold lt3. simpl. lia.
  - intros j y Hj. lia.
  - simpl in *.
    set (i := argmax_from 0 p 1 ps) in *.
    set (v := fold_left (fun m y => if PrimFloat.ltb m y then y else m) ps p) in *.
    assert (forall (j : nat) x, (p :: ps) !! j = Some x -> not_nan x) as Hall.
    { intros j x Hx. apply (proj1 (Forall_lookup _ _) (Forall_cons_2 _ _ _ Hp Hps) j x Hx). }
    exists i, v. repeat split; try done.
    + intros j x Hx. apply leb_key; [by apply (Hall j)|done|]. by apply (Hle j).
    + intros j x Hx Hj. apply ltb_key; [by apply (Hall j)|done|]. by apply (Hlt j).
    + intros j x Hx He. apply eqb_key in He; [|by apply (Hall j)|done].
      destruct (decide (i <= j)%nat) as [|Hn]; [done|].
      assert (lt3 (fkey x) (fkey v)) as H by (apply (Hlt j); [lia|done]).
      rewrite He in H. revert H. destruct (fkey v) as [[? ?] ?]. unfold lt3. simpl. lia.
Qed.

Lemma argmax_first_maximum_witness :
  exists (i : nat) (v : float),
    torch_argmax [0.125; 0.375; 0.375; 0.125]%float = Some i /\
    torch_max [0.125; 0.375; 0.375; 0.125]%float = Some v /\
    [0.125; 0.375; 0.375; 0.125]%float !! i = Some v /\
    (forall (j : nat) x, [0.125; 0.375; 0.375; 0.125]%float !! j = Some x ->
                         PrimFloat.leb x v = true) /\
    (forall (j : nat) x, [0.125; 0.375; 0.375; 0.125]%float !! j = Some x ->
                         (j < i)%nat -> PrimFloat.ltb x v = true) /\
    (forall (j : nat) x, [0.125; 0.375; 0.375; 0.125]%float !! j = Some x ->
                         PrimFloat.eqb x v = true -> (i <= j)%nat) /\
    labels_of {[ py "1" := py "B-PER" ]} [i] =
      [default (py "O") (({[ py "1" := py "B-PER" ]} : gmap pystr pystr) !! py_str (Z.of_nat i))].
Proof.
  apply (argmax_first_maximum {[ py "1" := py "B-PER" ]} [0.125; 0.375; 0.375; 0.125]%float).
  - discriminate.
  - repeat constructor.
Defined.

Example argmax_tie : torch_argmax [0.125; 0.375; 0.375; 0.125]%float = Some 1%nat.
Proof. reflexivity. Qed.

(** ** True length and the floor at 1 *)

Section Lengths.

Variable nfc : pystr -> pystr.

Lemma encode_word_length (w : pystr) (vocab : gmap pystr Z) (ids : list Z) :
  encode_word nfc w vocab = Some ids -> len ids = MAX_WORD_LEN.
Proof.
  unfold encode_word.
  destruct (mapM _ _) as [l|] eqn:E; simpl; [|done].
  apply length_mapM in E. rewrite length_take in E.
  assert (0 <= MAX_WORD_LEN) as Hmax by done.
  unfold len in *.
  destruct (Z.ltb_spec (Z.of_nat (length l)) MAX_WORD_LEN) as [Hlt|Hge].
  - destruct (vocab !! PAD) as [pad|]; simpl; [|done]. intros [= <-].
    rewrite length_app, length_replicate. lia.
  - intros [= <-]. lia.
Qed.

Lemma true_char_len_range (w : pystr) : 0 <= true_char_len nfc w <= MAX_WORD_LEN.
Proof. unfold true_char_len, len. assert (0 <= MAX_WORD_LEN) by done. lia. Qed.

Lemma char_encoder_row_is_Some (enc : CharEncoder) (x : list Z) (l : Z) :
  1 <= l <= len x -> is_Some (char_encoder_row enc x l).
Proof.
  intros [H1 H2]. unfold char_encoder_row.
  apply Z.leb_le in H1, H2. rewrite H1, H2. simpl. by eexists.
Qed.

(** C3 (as the code does it): [true_char_len] is the minimum of the
    normalized length and MAX_WORD_LEN, without a floor: it is 0 for a word
    whose normalized form is empty. The floor is applied by
    [NerModel.forward], which passes [clamp(lengths, min=1)] to the
    character encoder; so the encoder gets max(1, min(length, MAX_WORD_LEN))
    for every word, a length between 1 and MAX_WORD_LEN, and accepts every
    encoded sentence. *)
Theorem char_encoder_lengths_floor (m : NerModel) (vocab : gmap pystr Z)
    (tokens : list pystr) (x : list (list Z)) (lengths : list Z) :
  (forall w, true_char_len nfc w = Z.min (len (normalize_text nfc w)) MAX_WORD_LEN) /\
  (forall w, len (normalize_text nfc w) = 0 -> true_char_len nfc w = 0) /\
  NerModel_forward m x lengths =
    (h ← CharEncoder_forward (char_encoder m) x (clamp_min 1 lengths);
     Some (map (bio_head m) (ctx_rnn m h))) /\
  clamp_min 1 (map (true_char_len nfc) tokens) =
    map (fun w => Z.max 1 (Z.min (len (normalize_text nfc w)) MAX_WORD_LEN)) tokens /\
  Forall (fun l => 1 <= l <= MAX_WORD_LEN) (clamp_min 1 (map (true_char_len nfc) tokens)) /\
  (mapM (fun w => encode_word nfc w vocab) tokens = Some x ->
   is_Some (NerModel_forward m x (map (true_char_len nfc) tokens))).
Proof.
  split; [done|]. split; [|split; [done|split; [|split]]].
  - intros w Hw. unfold true_char_len. rewrite Hw. done.
  - unfold clamp_min. rewrite map_map. done.
  - unfold clamp_min. rewrite map_map. apply Forall_forall. intros l Hl.
    apply list_elem_of_In, in_map_iff in Hl as (w & <- & _).
    pose proof (true_char_len_range w). assert (1 <= MAX_WORD_LEN) by done. lia.
  - intros Hx. unfold NerModel_forward.
    assert (is_Some (CharEncoder_forward (char_encoder m) x
                       (clamp_min 1 (map (true_char_len nfc) tokens)))) as [h ->];
      [|by eexists].
    unfold CharEncoder_forward.
    apply mapM_Some in Hx.
    assert (len x = len (clamp_min 1 (map (true_char_len nfc) tokens))) as Hlen.
    { unfold len, clamp_min. rewrite !length_map. f_equal. symmetry.
      by apply (Forall2_length _ _ _ Hx). }
    rewrite decide_True by done.
    apply mapM_is_Some. clear Hlen.
    induction Hx as [|w ids ws xs Hw Hx IH]; simpl; [constructor|].
    constructor; [|exact IH]. simpl.
    apply char_encoder_row_is_Some. rewrite (encode_word_length _ _ _ Hw).
    pose proof (true_char_len_range w). assert (1 <= MAX_WORD_LEN) by done. lia.
Qed.

End Lengths.

(** C3 (as stated): the true length of a word whose normalized form is
    empty is 0, not 1. *)
Lemma true_char_len_empty_counterexample :
  len (normalize_text nfc_inert (py "")) = 0 /\
  true_char_len nfc_inert (py "") = 0 /\
  len (normalize_text nfc_inert [ZWSP]) = 0 /\
  true_char_len nfc_inert [ZWSP] = 0.
Proof. repeat split. Qed.

Lemma char_encoder_lengths_floor_witness :
  map (true_char_len nfc_inert) [py ""; py "ab"] = [0; 2] /\
  clamp_min 1 (map (true_char_len nfc_inert) [py ""; py "ab"]) = [1; 2] /\
  is_Some (NerModel_forward toy_model
             [replicate 24 0; [2; 3] ++ replicate 22 0]
             (map (true_char_len nfc_inert) [py ""; py "ab"])).
Proof.
  split; [reflexivity|]. split; [reflexivity|].
  apply (char_encoder_lengths_floor nfc_inert toy_model
           (build_char_vocab nfc_inert [py "ab"]) [py ""; py "ab"] _ []).
  vm_compute. reflexivity.
Defined.

(** ** Padding does not reach the character encoder *)

Lemma char_encoder_row_prefix (enc : CharEncoder) (x x' : list Z) (l : Z) :
  take (Z.to_nat l) x = take (Z.to_nat l) x' ->
  char_encoder_row enc x l = char_encoder_row enc x' l.
Proof.
  intros H. unfold char_encoder_row.
  assert ((l <=? len x) = (l <=? len x')) as ->.
  { apply (f_equal length) in H. rewrite !length_take in H. unfold len.
    destruct (Z.leb_spec l (Z.of_nat (length x))), (Z.leb_spec l (Z.of_nat (length x')));
      try done; lia. }
  destruct ((1 <=? l) && (l <=? len x')); [|done].
  change (map (emb enc) x) with (emb enc <$> x).
  change (map (emb enc) x') with (emb enc <$> x').
  by rewrite <- !fmap_take, H.
Qed.

Lemma char_encoder_rows_prefix (enc : CharEncoder) (xs xs' : list (list Z))
    (lengths : list Z) :
  length xs = length xs' ->
  (forall (i : nat) x x' l, xs !! i = Some x -> xs' !! i = Some x' -> lengths !! i = Some l ->
     take (Z.to_nat l) x = take (Z.to_nat l) x') ->
  mapM (fun p => char_encoder_row enc p.1 p.2) (zip xs lengths) =
  mapM (fun p => char_encoder_row enc p.1 p.2) (zip xs' lengths).
Proof.
  revert xs' lengths. induction xs as [|x xs IH]; intros [|x' xs'] lengths Hlen H;
    try done.
  destruct lengths as [|l ls]; [done|]. simpl.
  rewrite (char_encoder_row_prefix enc x x' l) by (by apply (H 0%nat)).
  destruct (char_encoder_row enc x' l); [|done]. simpl.
  rewrite (IH xs' ls); [done|by injection Hlen|].
  intros i y y' l' Hy Hy' Hl. by apply (H (S i)).
Qed.

(** C9: two batches of encoded words with the same lengths, whose rows
    agree on the ids below the length of the row, get the same vectors
    from the character encoder; the ids at or beyond the length are not
    read. *)
Theorem char_encoder_ignores_padding (enc : CharEncoder) (xs xs' : list (list Z))
    (lengths : list Z) :
  length xs = length xs' ->
  (forall (i : nat) x x' l, xs !! i = Some x -> xs' !! i = Some x' -> lengths !! i = Some l ->
     take (Z.to_nat l) x = take (Z.to_nat l) x') ->
  CharEncoder_forward enc xs lengths = CharEncoder_forward enc xs' lengths.
Proof.
  intros Hlen H. unfold CharEncoder_forward, len. rewrite <- Hlen.
  case_decide; [|done].
  by apply char_encoder_rows_prefix.
Qed.

(** The same through [NerModel.forward], where the lengths are first
    raised to 1: the logits depend on the ids below max(1, length) only. *)
Lemma NerModel_forward_ignores_padding (m : NerModel) (xs xs' : list (list Z))
    (lengths : list Z) :
  length xs = length xs' ->
  (forall (i : nat) x x' l, xs !! i = Some x -> xs' !! i = Some x' -> lengths !! i = Some l ->
     take (Z.to_nat (Z.max 1 l)) x = take (Z.to_nat (Z.max 1 l)) x') ->
  NerModel_forward m xs lengths = NerModel_forward m xs' lengths.
Proof.
  intros Hlen H. unfold NerModel_forward, CharEncoder_forward, len. rewrite <- Hlen.
  case_decide; [|done].
  rewrite (char_encoder_rows_prefix (char_encoder m) xs xs' (clamp_min 1 lengths));
    [done|done|].
  intros i x x' l Hx Hx' Hl. unfold clamp_min in Hl.
  change (map (Z.max 1) lengths) with (Z.max 1 <$> lengths) in Hl.
  rewrite list_lookup_fmap in Hl.
  destruct (lengths !! i) as [l0|] eqn:E; [|done]. injection Hl as <-.
  by apply (H i).
Qed.

Lemma char_encoder_ignores_padding_witness :
  CharEncoder_forward toy_encoder [[5; 6; 0; 0]; [7; 0; 0; 0]] [2; 1] =
  CharEncoder_forward toy_encoder [[5; 6; 9; 9]; [7; 8; 8; 8]] [2; 1].
Proof.
  apply (char_encoder_ignores_padding toy_encoder).
  - reflexivity.
  - intros [|[|i]] x x' l Hx Hx' Hl; simpl in *; [| |done].
    + injection Hx as <-. injection Hx' as <-. by injection Hl as <-.
    + injection Hx as <-. injection Hx' as <-. by injection Hl as <-.
Defined.

(** ** The endpoint on a text without tokens *)

Section EndpointFacts.

Variable nfc : pystr -> pystr.
Variable softmax : vec -> vec.

(** C6 (as the code does it): the empty text is rejected with status 400.
    A non-empty text whose normalized form has no token (whitespace only)
    gets, once the model, the labels and the vocabulary are loaded, the
    normalized text with an empty entity list, and no forward pass is
    run; while one of the three is not loaded it gets status 503. *)
Theorem ner_without_tokens (g : globals) (text : pystr) :
  ner nfc softmax g [] = (HTTP_400, 0%nat) /\
  (text <> [] ->
   (ws_tokens_with_spans (normalize_text nfc text)).1 = [] ->
   ner nfc softmax g text =
   match model g, id2label g, char2idx g with
   | Some _, Some _, Some _ => (NerOut (normalize_text nfc text) [], 0%nat)
   | _, _, _ => (HTTP_503, 0%nat)
   end).
Proof.
  split; [done|]. intros Hne Htok. unfold ner.
  rewrite decide_False by done.
  destruct (model g), (id2label g), (char2idx g); try done.
  destruct (ws_tokens_with_spans (normalize_text nfc text)) as [tokens spans].
  simpl in Htok. by rewrite decide_True.
Qed.

End EndpointFacts.

Lemma ner_without_tokens_witness :
  ner nfc_inert toy_softmax toy_globals (py "   ") = (NerOut (py "   ") [], 0%nat).
Proof.
  apply (proj2 (ner_without_tokens nfc_inert toy_softmax toy_globals (py "   "))).
  - discriminate.
  - reflexivity.
Defined.

(** C6 (as stated): the empty text has no token, and the endpoint answers
    it with the error 400, not with an empty entity list. *)
Lemma ner_empty_text_counterexample :
  (ws_tokens_with_spans (normalize_text nfc_inert (py ""))).1 = [] /\
  ner nfc_inert toy_softmax toy_globals (py "") = (HTTP_400, 0%nat) /\
  ner nfc_inert toy_softmax toy_globals (py "") <>
    (NerOut (normalize_text nfc_inert (py "")) [], 0%nat).
Proof. split; [reflexivity|]. split; [reflexivity|]. discriminate. Qed.

(** A run through the whole endpoint: the toy model gives the row [2; 3]
    to "ab" (class 1, B-LOC) and the row [3] to "b" (class 0, O). *)
Example ner_toy_run :
  ner nfc_inert toy_softmax toy_globals (py "ab b") =
  (NerOut (py "ab b")
          [ {| ent_text := py "ab"; ent_label := py "LOC"; ent_score := 3%float;
               ent_start := 0; ent_end := 2 |} ],
   1%nat).
Proof. vm_compute. reflexivity. Qed.

(** * Further properties of the service *)

(** ** Normalizer *)

(** X1: the normalized text contains neither U+200B nor U+FEFF; every
    other character is in it exactly when it is in the NFC form, and it
    is not longer than the NFC form. *)
Theorem normalize_text_strips (nfc : pystr -> pystr) (s : pystr) :
  (ZWSP ∉ normalize_text nfc s) /\
  (BOM ∉ normalize_text nfc s) /\
  (forall c, c <> ZWSP -> c <> BOM -> (c ∈ normalize_text nfc s <-> c ∈ nfc s)) /\
  len (normalize_text nfc s) <= len (nfc s).
Proof.
  unfold normalize_text, py_remove.
  split; [|split; [|split]].
  - rewrite !list_elem_of_filter. intros (_ & H & _). done.
  - rewrite !list_elem_of_filter. intros (H & _). done.
  - intros c Hz Hb. rewrite !list_elem_of_filter. tauto.
  - unfold len. apply Nat2Z.inj_le.
    etrans; [apply length_filter|apply length_filter].
Qed.

(** ** Tokenizer *)

Lemma len_app {A} (l k : list A) : len (l ++ k) = len l + len k.
Proof. unfold len. rewrite length_app. lia. Qed.

Lemma ws_scan_tokens (s pre : pystr) (run : option (Z * pystr)) :
  scan_inv pre run ->
  Forall (token_at (pre ++ s)) (ws_scan (len pre) run s).
Proof.
  revert pre run. induction s as [|c r IH]; intros pre run Hinv.
  - destruct run as [[st tok]|]; simpl; [|constructor].
    destruct Hinv as (pre0 & -> & -> & Hne & Hns & Hl).
    constructor; [|constructor]. exists pre0, []. simpl.
    rewrite !app_nil_r, len_app. repeat split; try done.
  - assert (pre ++ c :: r = (pre ++ [c]) ++ r) as Etext by (by rewrite <- app_assoc).
    assert (len pre + 1 = len (pre ++ [c])) as Elen by (rewrite len_app; done).
    cbn [ws_scan]. destruct (py_isspace c) eqn:Ec.
    + assert (scan_inv (pre ++ [c]) None) as Hnone.
      { simpl. intros c'. rewrite last_snoc. by intros [= <-]. }
      destruct run as [[st tok]|].
      * destruct Hinv as (pre0 & -> & -> & Hne & Hns & Hl).
        constructor.
        -- exists pre0, (c :: r). simpl. rewrite <- app_assoc, len_app.
           repeat split; try done. by intros c' [= <-].
        -- rewrite Elen, Etext. by apply IH.
      * rewrite Elen, Etext. by apply IH.
    + destruct run as [[st tok]|].
      * destruct Hinv as (pre0 & -> & -> & Hne & Hns & Hl).
        rewrite Elen, Etext. apply IH. exists pre0.
        rewrite <- app_assoc. repeat split; try done.
        -- by destruct tok.
        -- apply Forall_app. split; [done|]. by constructor.
      * rewrite Elen, Etext. apply IH. exists pre.
        repeat split; try done. by constructor.
Qed.

(** X2: every token that [ws_tokens_with_spans] returns, with its span
    (start, end), is a maximal run of non-whitespace of the text: it is
    not empty, has no whitespace, is the slice text[start:end] with
    0 <= start < end <= len(text), and the characters just before and
    just after it, if any, are whitespace. *)
Theorem ws_tokens_are_slices (text : pystr) :
  length (ws_tokens_with_spans text).1 = length (ws_tokens_with_spans text).2 /\
  forall (i : nat) tok sp,
    (ws_tokens_with_spans text).1 !! i = Some tok ->
    (ws_tokens_with_spans text).2 !! i = Some sp ->
    0 <= sp.1 /\ sp.1 < sp.2 /\ sp.2 <= len text /\
    tok = take (Z.to_nat (sp.2 - sp.1)) (drop (Z.to_nat sp.1) text) /\
    tok <> [] /\
    Forall (fun c => py_isspace c = false) tok /\
    (forall c, 0 < sp.1 -> text !! Z.to_nat (sp.1 - 1) = Some c -> py_isspace c = true) /\
    (forall c, text !! Z.to_nat sp.2 = Some c -> py_isspace c = true).
Proof.
  unfold ws_tokens_with_spans. cbn [fst snd].
  split; [by rewrite !length_map|].
  intros i tok sp Ht Hs.
  change (map fst (ws_scan 0 None text)) with (fst <$> ws_scan 0 None text) in Ht.
  change (map snd (ws_scan 0 None text)) with (snd <$> ws_scan 0 None text) in Hs.
  rewrite list_lookup_fmap in Ht. rewrite list_lookup_fmap in Hs.
  destruct (ws_scan 0 None text !! i) as [[tok' sp']|] eqn:Ei; [|done].
  simpl in Ht, Hs. injection Ht as <-. injection Hs as <-.
  pose proof (ws_scan_tokens text [] None) as Hall.
  simpl in Hall. specialize (Hall ltac:(done)).
  apply (proj1 (Forall_lookup _ _) Hall i) in Ei.
  destruct Ei as (before & after & Etext & Est & Eend & Hne & Hns & Hl & Hr).
  simpl in *. unfold len, codepoint in *.
  assert (0 < length tok')%nat by (destruct tok'; [done|simpl; lia]).
  rewrite Est, Eend, Etext. rewrite !length_app.
  split; [lia|]. split; [lia|]. split; [lia|]. split.
  { rewrite Nat2Z.id, drop_app_length.
    replace (Z.to_nat (_ + _ - _)) with (length tok') by lia.
    by rewrite take_app_length. }
  split; [done|]. split; [done|]. split.
  - intros c Hpos Hc. apply Hl.
    rewrite lookup_app_l in Hc by lia.
    rewrite last_lookup. rewrite <- Hc. f_equal. lia.
  - intros c Hc. apply Hr.
    replace (Z.to_nat _) with (length before + (length tok' + 0))%nat in Hc by lia.
    rewrite lookup_app_r in Hc by lia. rewrite lookup_app_r in Hc by lia.
    rewrite head_lookup. rewrite <- Hc. f_equal. lia.
Qed.

Lemma ws_scan_concat (s : pystr) (i : Z) (run : option (Z * pystr)) :
  concat (map fst (ws_scan i run s)) =
  from_option snd [] run ++ filter (fun c => py_isspace c = false) s.
Proof.
  revert i run. induction s as [|c r IH]; intros i run.
  - destruct run as [[st tok]|]; simpl; by rewrite filter_nil.
  - cbn [ws_scan]. rewrite filter_cons. destruct (py_isspace c) eqn:Ec.
    + rewrite decide_False by done.
      destruct run as [[st tok]|]; simpl; by rewrite IH.
    + rewrite decide_True by done.
      destruct run as [[st tok]|]; rewrite IH; simpl; [|done].
      by rewrite <- app_assoc.
Qed.

(** X3: the tokens, concatenated, are the text without its whitespace:
    the tokenizer drops whitespace only, and keeps every other character
    once and in order. *)
Theorem ws_tokens_cover_text (text : pystr) :
  concat (ws_tokens_with_spans text).1 = filter (fun c => py_isspace c = false) text.
Proof.
  unfold ws_tokens_with_spans. cbn [fst].
  by rewrite ws_scan_concat.
Qed.

Lemma ws_scan_nil (s : pystr) (i : Z) (run : option (Z * pystr)) :
  ws_scan i run s = [] <-> run = None /\ Forall (fun c => py_isspace c = true) s.
Proof.
  revert i run. induction s as [|c r IH]; intros i run.
  - destruct run as [[st tok]|]; simpl.
    + split; [done|]. by intros [? _].
    + split; [|done]. intros _. split; [done|constructor].
  - cbn [ws_scan]. destruct (py_isspace c) eqn:Ec.
    + destruct run as [[st tok]|].
      * split; [done|]. by intros [? _].
      * rewrite IH. split.
        -- intros [_ H]. split; [done|]. by constructor.
        -- intros [_ H]. split; [done|]. by apply Forall_cons_1 in H as [_ H].
    + split.
      * destruct run as [[st tok]|]; rewrite IH; by intros [? _].
      * intros [_ H]. apply Forall_cons_1 in H as [H _]. congruence.
Qed.

(** X4: the tokenizer returns no token exactly when every character of
    the text is whitespace (the empty text included); then it returns no
    span either. *)
Theorem ws_tokens_empty_iff (text : pystr) :
  ((ws_tokens_with_spans text).1 = [] <-> Forall (fun c => py_isspace c = true) text) /\
  ((ws_tokens_with_spans text).1 = [] <-> (ws_tokens_with_spans text).2 = []).
Proof.
  unfold ws_tokens_with_spans. cbn [fst snd].
  pose proof (ws_scan_nil text 0 None) as H.
  assert (forall l : list (pystr * (Z * Z)), map fst l = [] <-> l = []) as Hf
    by (intros [|? ?]; done).
  assert (forall l : list (pystr * (Z * Z)), map snd l = [] <-> l = []) as Hg
    by (intros [|? ?]; done).
  split.
  - rewrite Hf, H. tauto.
  - by rewrite Hf, Hg.
Qed.

Lemma ws_scan_gaps (s : pystr) (i : Z) (run : option (Z * pystr)) (b : Z) :
  match run with
  | None => b < i
  | Some (st, _) => b < st /\ st < i
  end ->
  gaps b (map snd (ws_scan i run s)).
Proof.
  revert i run b. induction s as [|c r IH]; intros i run b H.
  - destruct run as [[st tok]|]; simpl; [|done]. lia.
  - cbn [ws_scan]. destruct (py_isspace c), run as [[st tok]|].
    + simpl. split; [lia|]. split; [lia|]. apply IH. lia.
    + apply IH. lia.
    + apply IH. lia.
    + apply IH. lia.
Qed.

Lemma gaps_weaken (b b' : Z) (l : list (Z * Z)) : b' <= b -> gaps b l -> gaps b' l.
Proof. destruct l as [|p r]; simpl; [done|]. intros ? (? & ? & ?). repeat split; [lia|lia|done]. Qed.

Lemma gaps_all_after (b : Z) (l : list (Z * Z)) :
  gaps b l -> Forall (fun q => b < q.1) l.
Proof.
  revert b. induction l as [|p r IH]; intros b H; constructor; simpl in H.
  - lia.
  - destruct H as (? & ? & Hr). apply IH. apply (gaps_weaken p.2); [lia|done].
Qed.

(** X5: consecutive tokens are separated by whitespace: every span ends
    strictly before each later span starts. *)
Theorem ws_spans_separated (text : pystr) :
  StronglySorted (fun p q : Z * Z => p.2 < q.1) (ws_tokens_with_spans text).2.
Proof.
  unfold ws_tokens_with_spans. cbn [snd].
  pose proof (ws_scan_gaps text 0 None (-1) ltac:(simpl; lia)) as H.
  revert H. generalize (map snd (ws_scan 0 None text)), (-1). clear.
  induction l as [|p r IH]; intros b H; [constructor|].
  simpl in H. destruct H as (? & ? & Hr).
  constructor; [by apply (IH p.2)|]. by apply gaps_all_after.
Qed.

(** ** Vocabulary and word encoder, further *)

Lemma dom_dict_of_pairs (pairs : list (Z * pystr)) (d : gmap pystr Z) :
  dom (fold_left (fun d p => <[p.2 := p.1]> d) pairs d) =
  list_to_set (snd <$> pairs) ∪ dom d.
Proof.
  revert d. induction pairs as [|[i c] ps IH]; intros d; simpl.
  - apply set_eq. intros x. rewrite elem_of_union, elem_of_empty. tauto.
  - rewrite IH, dom_insert_L. apply set_eq. intros x.
    rewrite !elem_of_union. tauto.
Qed.

Section VocabularyFacts.

Variable nfc : pystr -> pystr.

Lemma mapM_lookup_char_any (vocab : gmap pystr Z) (l : pystr) :
  mapM (lookup_char vocab) l =
  match vocab !! UNK with
  | Some unk => Some (map (fun ch => default unk (vocab !! [ch])) l)
  | None => if decide (l = []) then Some [] else None
  end.
Proof.
  unfold lookup_char. destruct (vocab !! UNK) as [unk|]; simpl.
  - induction l as [|c l IH]; simpl; [done|]. by rewrite IH.
  - by destruct l.
Qed.

(** X6: with any vocabulary, [encode_word] fails in two cases only: the
    normalized word is not empty and the vocabulary has no UNK key, or the
    normalized word is shorter than MAX_WORD_LEN and the vocabulary has no
    PAD key. A word of MAX_WORD_LEN characters or more needs no PAD key, and
    the empty word needs no UNK key. *)
Theorem encode_word_fails_iff (word : pystr) (vocab : gmap pystr Z) :
  encode_word nfc word vocab = None <->
  (normalize_text nfc word <> [] /\ vocab !! UNK = None) \/
  (len (normalize_text nfc word) < MAX_WORD_LEN /\ vocab !! PAD = None).
Proof.
  unfold encode_word. set (w := normalize_text nfc word).
  assert (0 < MAX_WORD_LEN) as Hmax by done.
  set (n := Z.to_nat MAX_WORD_LEN). assert (MAX_WORD_LEN = Z.of_nat n) as Hn by lia.
  clearbody n. generalize dependent MAX_WORD_LEN. intros M Hpos ->.
  rewrite mapM_lookup_char_any.
  assert (take n w = [] <-> w = []) as Hnil.
  { destruct w, n; simpl; done. }
  assert (forall ids : list Z, length ids = length (take n w) ->
            (len ids <? Z.of_nat n) = true <-> len w < Z.of_nat n) as Hlt.
  { intros ids E. unfold len. rewrite E, length_take. rewrite Z.ltb_lt. lia. }
  destruct (vocab !! UNK) as [unk|] eqn:EU.
  - simpl. set (ids := map _ (take n w)).
    specialize (Hlt ids ltac:(subst ids; by rewrite length_map)).
    destruct (len ids <? Z.of_nat n) eqn:E.
    + destruct (vocab !! PAD) as [pad|]; simpl.
      * split; [done|]. intros [[_ ?]|[_ ?]]; done.
      * split; [|done]. intros _. right. split; [by apply Hlt|done].
    + split; [done|]. intros [[_ ?]|[Hw _]]; [done|].
      apply Hlt in Hw. congruence.
  - destruct (decide (take n w = [])) as [E|E]; simpl.
    + apply Hnil in E. rewrite E. unfold len at 1. simpl.
      destruct (Z.ltb_spec (Z.of_nat 0) (Z.of_nat n)) as [_|?]; [|lia].
      destruct (vocab !! PAD) as [pad|]; simpl.
      * split; [done|]. intros [[H _]|[_ H]]; [by destruct H|done].
      * split; [|done]. intros _. right. split; [|done]. unfold len. simpl. lia.
    + split; [|done]. intros _. left. split; [|done]. intros Ew. by apply E, Hnil.
Qed.

Lemma size_build_char_vocab (words : list pystr) :
  size (build_char_vocab nfc words) = (2 + size (collect_chars nfc words))%nat.
Proof.
  rewrite <- size_dom. unfold build_char_vocab, dict_of_pairs.
  rewrite dom_dict_of_pairs, enumerate_snd, dom_empty_L, (right_id_L ∅ (∪)).
  rewrite size_list_to_set by apply idx2char_NoDup.
  unfold idx2char_of. simpl. rewrite length_map. do 2 f_equal.
  unfold py_sorted. rewrite merge_sort_Permutation.
  done.
Qed.

(** X7: the ids fit the embedding table that [load_artifacts] sizes with
    len(char2idx): the vocabulary has two entries more than there are
    distinct non-blank characters, and every id that [encode_word] returns
    for this vocabulary is at least 0 and below that size. *)
Theorem encode_word_ids_in_table (words : list pystr) (word : pystr) :
  size (build_char_vocab nfc words) = (2 + size (collect_chars nfc words))%nat /\
  exists ids,
    encode_word nfc word (build_char_vocab nfc words) = Some ids /\
    Forall (fun i => 0 <= i < Z.of_nat (size (build_char_vocab nfc words))) ids.
Proof.
  split; [apply size_build_char_vocab|].
  assert (forall k v, build_char_vocab nfc words !! k = Some v ->
            0 <= v < Z.of_nat (size (build_char_vocab nfc words))) as Hrange.
  { intros k v Hk. rewrite size_build_char_vocab.
    destruct (build_char_vocab_inv nfc words k v Hk)
      as [[_ ->]|[[_ ->]|(i & c & _ & Hi & ->)]]; [lia|lia|].
    apply lookup_lt_Some in Hi. unfold py_sorted in Hi.
    rewrite merge_sort_Permutation in Hi.
    change (length (elements (collect_chars nfc words)))
      with (size (collect_chars nfc words)) in Hi. lia. }
  pose proof (build_char_vocab_PAD nfc words) as HP.
  pose proof (build_char_vocab_UNK nfc words) as HU.
  unfold encode_word. rewrite mapM_lookup_char_any, HU. simpl. rewrite HP. simpl.
  set (l := take (Z.to_nat MAX_WORD_LEN) (normalize_text nfc word)).
  assert (Forall (fun i => 0 <= i < Z.of_nat (size (build_char_vocab nfc words)))
            (map (fun ch => default 1 (build_char_vocab nfc words !! [ch])) l)) as Hids.
  { apply Forall_forall. intros i Hi. apply list_elem_of_In, in_map_iff in Hi as (c & <- & _).
    destruct (build_char_vocab nfc words !! [c]) as [v|] eqn:E; simpl.
    - by apply (Hrange [c]).
    - by apply (Hrange UNK). }
  destruct (len _ <? MAX_WORD_LEN); eexists; (split; [done|]); [|done].
  apply Forall_app. split; [done|].
  apply Forall_forall. intros i Hi. apply elem_of_replicate in Hi as [-> _].
  by apply (Hrange PAD).
Qed.

(** X8: the vocabulary and the list [idx2char] are inverse to each
    other: the string at position n has id n, an id leads back to its key,
    and no two keys share an id. *)
Theorem build_char_vocab_round_trip (words : list pystr) :
  (forall (n : nat) k, idx2char_of nfc words !! n = Some k ->
     build_char_vocab nfc words !! k = Some (Z.of_nat n)) /\
  (forall k v, build_char_vocab nfc words !! k = Some v ->
     0 <= v /\ idx2char_of nfc words !! Z.to_nat v = Some k) /\
  (forall k k' v, build_char_vocab nfc words !! k = Some v ->
     build_char_vocab nfc words !! k' = Some v -> k = k').
Proof.
  split; [|split].
  - intros n k Hn. apply lookup_build_char_vocab. by exists n.
  - intros k v (n & -> & Hn)%lookup_build_char_vocab.
    split; [lia|]. by rewrite Nat2Z.id.
  - intros k k' v (n & -> & Hn)%lookup_build_char_vocab
                  (n' & E & Hn')%lookup_build_char_vocab.
    apply Nat2Z.inj in E. subst n'. congruence.
Qed.

(** X9: [encode_word] and [true_char_len] read the first MAX_WORD_LEN
    characters of the normalized word only: two words whose normalized
    forms agree on them get the same ids and the same true length. *)
Theorem encode_word_reads_prefix (w w' : pystr) (vocab : gmap pystr Z) :
  take (Z.to_nat MAX_WORD_LEN) (normalize_text nfc w) =
  take (Z.to_nat MAX_WORD_LEN) (normalize_text nfc w') ->
  encode_word nfc w vocab = encode_word nfc w' vocab /\
  true_char_len nfc w = true_char_len nfc w'.
Proof.
  intros H. split.
  - unfold encode_word. by rewrite H.
  - apply (f_equal length) in H. rewrite !length_take in H.
    unfold true_char_len, len. assert (0 <= MAX_WORD_LEN) by done. lia.
Qed.

End VocabularyFacts.

Lemma encode_word_reads_prefix_witness :
  encode_word nfc_inert (py "abcdefghijklmnopqrstuvwxyz") (build_char_vocab nfc_inert [py "abc"]) =
  encode_word nfc_inert (py "abcdefghijklmnopqrstuvwx01") (build_char_vocab nfc_inert [py "abc"]) /\
  true_char_len nfc_inert (py "abcdefghijklmnopqrstuvwxyz") =
  true_char_len nfc_inert (py "abcdefghijklmnopqrstuvwx01").
Proof.
  apply (encode_word_reads_prefix nfc_inert). vm_compute. reflexivity.
Defined.

(** ** Decoder, further *)

Lemma zip4_maps tokens spans labels scores :
  length spans = length tokens -> length labels = length tokens ->
  length scores = length tokens ->
  map r_token (zip4 tokens spans labels scores) = tokens /\
  map r_span (zip4 tokens spans labels scores) = spans /\
  map r_label (zip4 tokens spans labels scores) = labels /\
  map r_score (zip4 tokens spans labels scores) = scores.
Proof.
  revert spans labels scores.
  induction tokens as [|t ts IH]; intros [|s ss] [|l ls] [|c cs] H1 H2 H3; try done.
  simpl. destruct (IH ss ls cs) as (E1 & E2 & E3 & E4); try (simpl in *; lia).
  by rewrite E1, E2, E3, E4.
Qed.

Lemma fold_extend_span (rows : list row) (c : span_acc) :
  fold_left extend_span rows c =
  {| cur_text := cur_text c ++ flat_map (fun r => SPACE :: r_token r) rows;
     cur_label := cur_label c;
     cur_scores := cur_scores c ++ map r_score rows;
     cur_start := cur_start c;
     cur_end := default (cur_end c) (last (map (fun r => (r_span r).2) rows)) |}.
Proof.
  revert c. induction rows as [|r rs IH]; intros c; simpl.
  - destruct c; simpl. by rewrite !app_nil_r.
  - rewrite IH. simpl. rewrite <- !app_assoc. simpl. f_equal.
    generalize (map (fun r0 => (r_span r0).2) rs). intros l.
    destruct l as [|x l]; [done|]. rewrite last_cons_cons.
    destruct (last (x :: l)) eqn:E; [done|]. by apply last_None in E.
Qed.

Lemma emit_inside_run (rows : list row) (c : span_acc) :
  Forall (fun r => r_label r = py "I-" ++ cur_label c) rows ->
  emit (Some c) rows = [entity_of (fold_left extend_span rows c)].
Proof.
  revert c. induction rows as [|r rs IH]; intros c H; [done|].
  apply Forall_cons_1 in H as [Hr H]. cbn [emit fold_left].
  rewrite (decode_step_extend _ r c (py "I")); try done.
  - simpl. by apply IH.
  - rewrite Hr. apply label_I_not_O.
  - rewrite Hr. apply parse_label_I.
Qed.

(** X10: a token labelled B-T followed by tokens that are all labelled
    I-T decodes to exactly one entity: its text is the tokens joined by
    single spaces, its score the mean of all their scores, its start the
    start of the first span and its end the end of the last one. *)
Theorem decode_entities_run (T tok : pystr) (toks : list pystr) (sp : Z * Z)
    (sps : list (Z * Z)) (sc : float) (scs : list float) :
  length sps = length toks -> length scs = length toks ->
  decode_entities (tok :: toks) (sp :: sps)
                  ((py "B-" ++ T) :: replicate (length toks) (py "I-" ++ T))
                  (sc :: scs) =
  [ {| ent_text := py_join_space (tok :: toks);
       ent_label := T;
       ent_score := mean_score (sc :: scs);
       ent_start := sp.1;
       ent_end := (default sp (last sps)).2 |} ].
Proof.
  intros Hs Hc. rewrite decode_entities_emit. cbn [zip4 emit].
  set (rows := zip4 toks sps (replicate (length toks) (py "I-" ++ T)) scs).
  destruct (zip4_maps toks sps (replicate (length toks) (py "I-" ++ T)) scs)
    as (Et & Es & El & Ec); [done|by rewrite length_replicate|done|].
  fold rows in Et, Es, El, Ec.
  set (r0 := {| r_token := tok; r_span := sp; r_label := py "B-" ++ T; r_score := sc |}).
  rewrite (decode_step_fresh _ r0 (py "B") T).
  - simpl. rewrite emit_inside_run.
    + rewrite fold_extend_span. unfold entity_of, begin_span. simpl.
      f_equal. f_equal.
      * f_equal. rewrite <- Et. clear. induction rows as [|r rs IH]; [done|].
        simpl. by rewrite IH.
      * by rewrite Ec.
      * rewrite <- Es. clear.
        change (map (fun r => (r_span r).2) rows) with ((fun r => (r_span r).2) <$> rows).
        change (map r_span rows) with (r_span <$> rows).
        rewrite !fmap_last. by destruct (last rows).
    + simpl. apply Forall_forall. intros r Hr.
      assert (r_label r ∈ map r_label rows) as H
        by (apply list_elem_of_In, in_map, list_elem_of_In, Hr).
      rewrite El in H. by apply elem_of_replicate in H as [-> _].
  - apply label_B_not_O.
  - apply parse_label_B.
  - intros c Hc'. by left.
Qed.

Lemma decode_entities_run_witness :
  decode_entities [py "a"; py "b"; py "c"] [(0, 1); (2, 3); (4, 5)]
                  ((py "B-" ++ py "LOC") :: replicate 2 (py "I-" ++ py "LOC"))
                  [0.5; 0.25; 0.75]%float =
  [ {| ent_text := py_join_space [py "a"; py "b"; py "c"];
       ent_label := py "LOC";
       ent_score := mean_score [0.5; 0.25; 0.75]%float;
       ent_start := 0;
       ent_end := 5 |} ].
Proof.
  apply (decode_entities_run (py "LOC") (py "a") [py "b"; py "c"] (0, 1) [(2, 3); (4, 5)]
           0.5%float [0.25; 0.75]%float); reflexivity.
Defined.

Lemma decode_step_cases (cur : option span_acc) (r : row) :
  let d := decode_step {| entities := []; current := cur |} r in
  (is_outside r = true /\ current d = None /\
   entities d = from_option (fun c => [entity_of c]) [] cur) \/
  (is_outside r = false /\
   current d = Some (begin_span r (parse_label (r_label r)).2) /\
   entities d = from_option (fun c => [entity_of c]) [] cur) \/
  (is_outside r = false /\ is_begin r = false /\
   exists c, cur = Some c /\ cur_label c = (parse_label (r_label r)).2 /\
             current d = Some (extend_span c r) /\ entities d = []).
Proof.
  unfold decode_step, is_begin, is_outside. simpl.
  destruct (decide (r_label r = py "O")) as [HO|HO].
  - left. rewrite bool_decide_eq_true_2 by done. by destruct cur.
  - right. rewrite bool_decide_eq_false_2 by done.
    destruct (parse_label (r_label r)) as [prefix tag]. simpl.
    destruct cur as [c|]; [|by left].
    destruct (bool_decide (prefix = py "B")) eqn:EB; simpl; [by left|].
    destruct (bool_decide (cur_label c ≠ tag)) eqn:ET; simpl; [by left|].
    right. split; [done|]. split; [done|]. exists c.
    apply bool_decide_eq_false in ET. split; [done|]. split; [|done].
    by destruct (decide (cur_label c = tag)).
Qed.

Lemma emit_count (rows : list row) (cur : option span_acc) :
  let open := match cur with Some _ => 1%nat | None => 0%nat end in
  (open + length (filter (fun r => is_begin r = true) rows) <= length (emit cur rows))%nat /\
  (length (emit cur rows) <= open + length (filter (fun r => is_outside r = false) rows))%nat.
Proof.
  revert cur. induction rows as [|r rs IH]; intros cur; cbn zeta.
  - destruct cur; simpl; lia.
  - cbn [emit]. rewrite !filter_cons, length_app.
    pose proof (IH (current (decode_step {| entities := []; current := cur |} r))) as IH'.
    cbn zeta in IH'.
    destruct (decode_step_cases cur r) as
      [(HO & Hc & He)|[(HO & Hc & He)|(HO & HB & c & Ecur & _ & Hc & He)]];
      rewrite Hc in IH' |- *; rewrite He.
    + assert (is_begin r = false) as HB by (unfold is_begin; by rewrite HO).
      rewrite HO, HB. rewrite !decide_False by done.
      destruct cur; simpl in *; lia.
    + rewrite HO. rewrite (decide_True (P := (false = false))) by done.
      destruct (decide (is_begin r = true)); destruct cur; simpl in *; lia.
    + rewrite HO, HB. rewrite decide_False by done. rewrite decide_True by done.
      subst cur. simpl in *. lia.
Qed.

(** X11: the decoder returns at least one entity for each row whose
    label parses with prefix "B", and at most one entity for each row
    whose label is not "O"; in particular never more entities than rows. *)
Theorem decode_entities_count tokens spans labels scores :
  let rows := zip4 tokens spans labels scores in
  let ents := decode_entities tokens spans labels scores in
  (length (filter (fun r => is_begin r = true) rows) <= length ents)%nat /\
  (length ents <= length (filter (fun r => is_outside r = false) rows))%nat /\
  (length ents <= length rows)%nat.
Proof.
  intros rows ents. subst ents. rewrite decode_entities_emit. fold rows.
  destruct (emit_count rows None) as [H1 H2]. simpl in H1, H2.
  split; [done|]. split; [done|].
  etrans; [exact H2|]. apply length_filter.
Qed.

Lemma emit_nil_iff (rows : list row) (cur : option span_acc) :
  emit cur rows = [] <-> cur = None /\ Forall (fun r => is_outside r = true) rows.
Proof.
  revert cur. induction rows as [|r rs IH]; intros cur.
  - destruct cur; simpl.
    + split; [done|]. by intros [? _].
    + split; [|done]. intros _. split; [done|constructor].
  - cbn [emit].
    destruct (decode_step_cases cur r) as
      [(HO & Hc & He)|[(HO & Hc & He)|(HO & HB & c & -> & _ & Hc & He)]];
      rewrite Hc, He.
    + destruct cur as [c|]; simpl.
      * split; [done|]. by intros [? _].
      * rewrite IH. split.
        -- intros [_ H]. split; [done|]. by constructor.
        -- intros [_ H]. split; [done|]. by apply Forall_cons_1 in H as [_ H].
    + split.
      * intros H. apply app_eq_nil in H as [_ H]. by apply IH in H as [? _].
      * intros [_ H]. apply Forall_cons_1 in H as [H _]. congruence.
    + simpl. split.
      * intros H. by apply IH in H as [? _].
      * by intros [? _].
Qed.

(** X12: the decoder returns no entity exactly when every row it reads is
    labelled "O" (which includes the case of an empty list among its four
    arguments). *)
Theorem decode_entities_nil_iff tokens spans labels scores :
  decode_entities tokens spans labels scores = [] <->
  Forall (fun r => r_label r = py "O") (zip4 tokens spans labels scores).
Proof.
  rewrite decode_entities_emit, emit_nil_iff. split.
  - intros [_ H]. eapply Forall_impl; [exact H|].
    intros r Hr. unfold is_outside in Hr. by apply bool_decide_eq_true in Hr.
  - intros H. split; [done|]. eapply Forall_impl; [exact H|].
    intros r Hr. unfold is_outside. by apply bool_decide_eq_true.
Qed.

Lemma py_join_space_drop (l : list pystr) :
  py_join_space l = drop 1 (flat_map (fun y => SPACE :: y) l).
Proof. by destruct l. Qed.

Lemma emit_spaced (rows : list row) (cur : option span_acc) :
  flat_map (fun y => SPACE :: y) (map ent_text (emit cur rows)) =
  from_option (fun c => SPACE :: cur_text c) [] cur ++
  flat_map (fun y => SPACE :: y)
           (map r_token (filter (fun r => is_outside r = false) rows)).
Proof.
  revert cur. induction rows as [|r rs IH]; intros cur.
  - destruct cur; simpl; by rewrite ?filter_nil, ?app_nil_r.
  - cbn [emit]. rewrite filter_cons, map_app, flat_map_app.
    destruct (decode_step_cases cur r) as
      [(HO & Hc & He)|[(HO & Hc & He)|(HO & HB & c & -> & _ & Hc & He)]];
      rewrite Hc, He, HO, IH.
    + rewrite decide_False by done. destruct cur; simpl; by rewrite ?app_nil_r.
    + rewrite decide_True by done. destruct cur; simpl; by rewrite ?app_nil_r.
    + rewrite decide_True by done. simpl. by rewrite <- !app_assoc.
Qed.

(** X13: no token is lost, repeated or moved: the texts of the entities,
    joined by single spaces, are the tokens of the rows that are not
    labelled "O", joined by single spaces. *)
Theorem decode_entities_keeps_tokens tokens spans labels scores :
  py_join_space (map ent_text (decode_entities tokens spans labels scores)) =
  py_join_space
    (map r_token (filter (fun r => is_outside r = false)
                         (zip4 tokens spans labels scores))).
Proof.
  rewrite decode_entities_emit, !py_join_space_drop.
  by rewrite emit_spaced.
Qed.

Lemma emit_from (rows all : list row) (cur : option span_acc) :
  (forall r, r ∈ rows -> r ∈ all) ->
  (forall c, cur = Some c -> span_from all c) ->
  Forall (entity_from all) (emit cur rows).
Proof.
  assert (forall c, span_from all c -> entity_from all (entity_of c)) as Hent.
  { intros c (r & r' & H). by exists r, r'. }
  revert cur. induction rows as [|r rs IH]; intros cur Hin Hcur.
  - destruct cur as [c|]; simpl; [|constructor].
    constructor; [|constructor]. by apply Hent, Hcur.
  - cbn [emit]. apply Forall_app.
    assert (forall r', r' ∈ rs -> r' ∈ all) as Hin' by (intros r' ?; apply Hin; by right).
    assert (r ∈ all) as Hr by (apply Hin; by left).
    assert (Forall (entity_from all) (from_option (fun c => [entity_of c]) [] cur)) as Hfl.
    { destruct cur as [c|]; simpl; [|constructor].
      constructor; [|constructor]. by apply Hent, Hcur. }
    destruct (decode_step_cases cur r) as
      [(HO & Hc & He)|[(HO & Hc & He)|(HO & HB & c & -> & _ & Hc & He)]];
      rewrite Hc, He.
    + split; [done|]. by apply IH.
    + split; [done|]. apply IH; [done|]. intros c [= <-].
      by exists r, r.
    + split; [constructor|]. apply IH; [done|]. intros c' [= <-].
      destruct (Hcur c eq_refl) as (r0 & r1 & H0 & H1 & HO0 & HO1 & El & Es & Ee).
      by exists r0, r.
Qed.

(** X14: every entity comes from the rows: it starts at the start of the
    span of a row that is not labelled "O", its label is the part of that
    row's label after the first hyphen (the whole label when there is no
    hyphen), and it ends at the end of the span of such a row. *)
Theorem decode_entities_from_rows tokens spans labels scores :
  Forall (entity_from (zip4 tokens spans labels scores))
         (decode_entities tokens spans labels scores).
Proof.
  rewrite decode_entities_emit. by apply emit_from.
Qed.

(** X15: parsing a label and putting it together again: for a label
    with a hyphen, prefix + "-" + tag is the label and the prefix has no
    hyphen (the label is cut at its first hyphen); a label without a hyphen
    is its own tag, with prefix "B". *)
Theorem parse_label_round_trip (label : pystr) :
  (HYPHEN ∈ label ->
   label = (parse_label label).1 ++ HYPHEN :: (parse_label label).2 /\
   HYPHEN ∉ (parse_label label).1) /\
  (HYPHEN ∉ label -> parse_label label = (py "B", label)).
Proof.
  split; [|apply parse_label_plain].
  intros H. apply list_elem_of_split_l in H as (p & t & -> & Hp).
  by rewrite parse_label_hyphen.
Qed.

(** ** Startup and health *)

Section LoaderFacts.

Variable nfc : pystr -> pystr.
Variable softmax : vec -> vec.
Variable state_dict : Type.
Variable new_NerModel : Z -> Z -> Z -> Z -> Z -> option NerModel.
Variable load_state_dict : NerModel -> state_dict -> NerModel * bool.

Ltac run_loader :=
  unfold startup, load_artifacts, loader_bind, attempt, loader_ret,
         set_model, set_id2label, set_char2idx, set_pad_idx, set_unk_idx;
  cbn [fst snd globals_of model id2label char2idx pad_idx unk_idx].

Lemma startup_constructed (fs : artifact_files state_dict) (s : service)
    cfg i2l ws e h n m :
  config_json _ fs = Some cfg -> id2label_json _ fs = Some i2l ->
  vocab_json _ fs = Some ws ->
  cfg !! py "embedding_dim" = Some e -> cfg !! py "hidden_dim" = Some h ->
  cfg !! py "num_labels" = Some n ->
  new_NerModel (Z.of_nat (size (build_char_vocab nfc ws))) e h n 0 = Some m ->
  startup nfc state_dict new_NerModel load_state_dict fs s =
  {| globals_of :=
       {| model := Some match model_pt _ fs with
                        | Some st => (load_state_dict m st).1
                        | None => m
                        end;
          id2label := Some i2l;
          char2idx := Some (build_char_vocab nfc ws) |};
     pad_idx := 0;
     unk_idx := 1 |}.
Proof.
  intros Hc Hi Hv He Hh Hn Hm. run_loader.
  rewrite Hc, Hi, Hv. cbn [fst snd globals_of model id2label char2idx pad_idx unk_idx].
  rewrite build_char_vocab_PAD, build_char_vocab_UNK.
  cbn [fst snd globals_of model id2label char2idx pad_idx unk_idx].
  rewrite He, Hh, Hn, Hm.
  cbn [fst snd globals_of model id2label char2idx pad_idx unk_idx].
  destruct (model_pt _ fs) as [st|]; [|done].
  cbn [fst snd globals_of model id2label char2idx pad_idx unk_idx].
  by destruct (load_state_dict m st) as [m' []].
Qed.

Lemma startup_not_constructed (fs : artifact_files state_dict) :
  (forall cfg i2l ws e h n,
     config_json _ fs = Some cfg -> id2label_json _ fs = Some i2l ->
     vocab_json _ fs = Some ws ->
     cfg !! py "embedding_dim" = Some e -> cfg !! py "hidden_dim" = Some h ->
     cfg !! py "num_labels" = Some n ->
     new_NerModel (Z.of_nat (size (build_char_vocab nfc ws))) e h n 0 = None) ->
  model (globals_of (startup nfc state_dict new_NerModel load_state_dict fs service_init))
  = None.
Proof.
  intros H. run_loader.
  destruct (config_json _ fs) as [cfg|]; [|done].
  destruct (id2label_json _ fs) as [i2l|]; [|done].
  destruct (vocab_json _ fs) as [ws|]; [|done].
  cbn [fst snd globals_of model id2label char2idx pad_idx unk_idx].
  rewrite build_char_vocab_PAD, build_char_vocab_UNK.
  cbn [fst snd globals_of model id2label char2idx pad_idx unk_idx].
  destruct (cfg !! py "embedding_dim") as [e|] eqn:He; [|done].
  destruct (cfg !! py "hidden_dim") as [h|] eqn:Hh; [|done].
  destruct (cfg !! py "num_labels") as [n|] eqn:Hn; [|done].
  by rewrite (H cfg i2l ws e h n).
Qed.

(** X16: after [startup] from the initial state, [health] reports
    model_loaded exactly when config.json, id2label.json and vocab.json
    could be read, the configuration has the three sizes, and the model
    could be constructed. Whether model.pt could be read, and whether its
    parameters fit, plays no part. *)
Theorem health_after_startup (fs : artifact_files state_dict) :
  health (startup nfc state_dict new_NerModel load_state_dict fs service_init) = (true, true)
  <->
  exists cfg i2l ws e h n,
    config_json _ fs = Some cfg /\ id2label_json _ fs = Some i2l /\
    vocab_json _ fs = Some ws /\
    cfg !! py "embedding_dim" = Some e /\ cfg !! py "hidden_dim" = Some h /\
    cfg !! py "num_labels" = Some n /\
    is_Some (new_NerModel (Z.of_nat (size (build_char_vocab nfc ws))) e h n 0).
Proof.
  split.
  - intros Hh. unfold health in Hh.
    assert ((forall cfg i2l ws e h n,
               config_json _ fs = Some cfg -> id2label_json _ fs = Some i2l ->
               vocab_json _ fs = Some ws ->
               cfg !! py "embedding_dim" = Some e -> cfg !! py "hidden_dim" = Some h ->
               cfg !! py "num_labels" = Some n ->
               new_NerModel (Z.of_nat (size (build_char_vocab nfc ws))) e h n 0 = None) ->
            False) as Hno.
    { intros H. by rewrite (startup_not_constructed fs H) in Hh. }
    destruct (config_json _ fs) as [cfg|] eqn:Hc; [|destruct Hno; intros; congruence].
    destruct (id2label_json _ fs) as [i2l|] eqn:Hi; [|destruct Hno; intros; congruence].
    destruct (vocab_json _ fs) as [ws|] eqn:Hv; [|destruct Hno; intros; congruence].
    destruct (cfg !! py "embedding_dim") as [e|] eqn:He;
      [|destruct Hno; intros; congruence].
    destruct (cfg !! py "hidden_dim") as [h|] eqn:Hhd;
      [|destruct Hno; intros; congruence].
    destruct (cfg !! py "num_labels") as [n|] eqn:Hn;
      [|destruct Hno; intros; congruence].
    destruct (new_NerModel (Z.of_nat (size (build_char_vocab nfc ws))) e h n 0)
      as [m|] eqn:Hm; [|destruct Hno; intros; congruence].
    exists cfg, i2l, ws, e, h, n. by rewrite Hm.
  - intros (cfg & i2l & ws & e & h & n & Hc & Hi & Hv & He & Hh & Hn & [m Hm]).
    by rewrite (startup_constructed fs service_init cfg i2l ws e h n m).
Qed.



Lemma ner_loaded_not_503 (m : NerModel) (i2l : gmap pystr pystr) (c2i : gmap pystr Z)
    (text : pystr) :
  (ner nfc softmax {| model := Some m; id2label := Some i2l; char2idx := Some c2i |} text).1
  <> HTTP_503.
Proof.
  unfold ner. cbn [model id2label char2idx].
  repeat case_match; done.
Qed.

(** X17: when model.pt cannot be read while the other three files are
    fine and the model can be constructed, [load_artifacts] raises, but
    [startup] goes on with all three variables set: the model is the newly
    constructed one, with the parameters of its initialisation, [health]
    reports model_loaded, and [ner] does not answer 503. *)
Theorem startup_without_weights (fs : artifact_files state_dict) (s : service)
    cfg i2l ws e h n m :
  config_json _ fs = Some cfg -> id2label_json _ fs = Some i2l ->
  vocab_json _ fs = Some ws ->
  cfg !! py "embedding_dim" = Some e -> cfg !! py "hidden_dim" = Some h ->
  cfg !! py "num_labels" = Some n ->
  new_NerModel (Z.of_nat (size (build_char_vocab nfc ws))) e h n 0 = Some m ->
  model_pt _ fs = None ->
  (load_artifacts nfc state_dict new_NerModel load_state_dict fs s).1 = None /\
  globals_of (startup nfc state_dict new_NerModel load_state_dict fs s) =
    {| model := Some m; id2label := Some i2l;
       char2idx := Some (build_char_vocab nfc ws) |} /\
  health (startup nfc state_dict new_NerModel load_state_dict fs s) = (true, true) /\
  forall text,
    (ner nfc softmax
         (globals_of (startup nfc state_dict new_NerModel load_state_dict fs s)) text).1
    <> HTTP_503.
Proof.
  intros Hc Hi Hv He Hh Hn Hm Hw.
  assert ((load_artifacts nfc state_dict new_NerModel load_state_dict fs s).1 = None) as Hr.
  { run_loader. rewrite Hc, Hi, Hv.
    cbn [fst snd globals_of model id2label char2idx pad_idx unk_idx].
    rewrite build_char_vocab_PAD, build_char_vocab_UNK.
    cbn [fst snd globals_of model id2label char2idx pad_idx unk_idx].
    rewrite He, Hh, Hn, Hm.
    cbn [fst snd globals_of model id2label char2idx pad_idx unk_idx].
    by rewrite Hw. }
  rewrite (startup_constructed fs s cfg i2l ws e h n m) by done. rewrite Hw.
  split; [done|]. split; [done|]. split; [done|].
  intros text. apply ner_loaded_not_503.
Qed.


End LoaderFacts.

Lemma startup_without_weights_witness :
  globals_of (startup nfc_inert unit toy_new_NerModel toy_load_state_dict toy_files
                      service_init) = toy_globals /\
  health (startup nfc_inert unit toy_new_NerModel toy_load_state_dict toy_files
                  service_init) = (true, true).
Proof.
  destruct (startup_without_weights nfc_inert toy_softmax unit toy_new_NerModel
              toy_load_state_dict toy_files service_init
              (<[ py "embedding_dim" := 4 ]>
                 (<[ py "hidden_dim" := 4 ]> {[ py "num_labels" := 2 ]}))
              (<[ py "1" := py "B-LOC" ]> {[ py "0" := py "O" ]})
              [py "ab"] 4 4 2 toy_model) as (_ & Hg & Hh & _);
    try (vm_compute; reflexivity).
  split; [exact Hg|exact Hh].
Defined.


(** ** The endpoint with loaded artifacts *)

Lemma gaps_to_weaken (b b' hi : Z) (l : list (Z * Z)) :
  b' <= b -> gaps_to b hi l -> gaps_to b' hi l.
Proof. destruct l as [|p r]; simpl; [done|]. intros ? (? & ? & ? & ?). repeat split; [lia|lia|lia|done]. Qed.

Lemma ws_scan_gaps_to (s : pystr) (i : Z) (run : option (Z * pystr)) (b : Z) :
  match run with
  | None => b < i
  | Some (st, _) => b < st /\ st < i
  end ->
  gaps_to b (i + len s) (map snd (ws_scan i run s)).
Proof.
  revert i run b. induction s as [|c r IH]; intros i run b H.
  - destruct run as [[st tok]|]; simpl; [|done]. unfold len. simpl. lia.
  - assert (i + len (c :: r) = (i + 1) + len r) as -> by (unfold len; simpl; lia).
    cbn [ws_scan]. destruct (py_isspace c), run as [[st tok]|].
    + simpl. split; [lia|]. split; [lia|]. split; [unfold len; lia|]. apply IH. lia.
    + apply IH. lia.
    + apply IH. lia.
    + apply IH. lia.
Qed.

Lemma emit_gaps_to (rows : list row) (cur : option span_acc) (b hi : Z) :
  match cur with
  | None => gaps_to b hi (map r_span rows)
  | Some c => b < cur_start c /\ cur_start c < cur_end c /\ cur_end c <= hi /\
              gaps_to (cur_end c) hi (map r_span rows)
  end ->
  gaps_to b hi (map ent_span (emit cur rows)).
Proof.
  revert cur b. induction rows as [|r rs IH]; intros cur b H.
  - destruct cur as [c|]; simpl in *; [|done]. tauto.
  - cbn [emit]. rewrite map_app.
    pose proof (IH (current (decode_step {| entities := []; current := cur |} r))) as IH'.
    destruct (decode_step_cases cur r) as
      [(HO & Hc & He)|[(HO & Hc & He)|(HO & HB & c & Ecur & _ & Hc & He)]];
      rewrite Hc in IH' |- *; rewrite He.
    + destruct cur as [c|]; simpl in *.
      * destruct H as (? & ? & ? & ? & ? & ? & Hr). repeat split; try done.
        apply IH'. apply (gaps_to_weaken (r_span r).2); [lia|done].
      * destruct H as (? & ? & ? & Hr).
        apply IH'. apply (gaps_to_weaken (r_span r).2); [lia|done].
    + destruct cur as [c|]; simpl in *.
      * destruct H as (? & ? & ? & ? & ? & ? & Hr). repeat split; try done.
        apply IH'. simpl. repeat split; try done.
      * destruct H as (? & ? & ? & Hr). apply IH'. simpl. repeat split; try done.
    + subst cur. simpl in *. destruct H as (? & ? & ? & ? & ? & ? & Hr).
      apply IH'. simpl. repeat split; try done. lia.
Qed.

Lemma zip4_length_le tokens spans labels scores :
  (length (zip4 tokens spans labels scores) <= length tokens)%nat.
Proof.
  revert spans labels scores.
  induction tokens as [|t ts IH]; intros [|s ss] [|l ls] [|c cs]; simpl; try lia.
  specialize (IH ss ls cs). lia.
Qed.

Lemma gaps_to_app_l (b hi : Z) (l k : list (Z * Z)) : gaps_to b hi (l ++ k) -> gaps_to b hi l.
Proof.
  revert b. induction l as [|p r IH]; intros b H; [done|].
  simpl in *. destruct H as (? & ? & ? & Hr). repeat split; try done. by apply IH.
Qed.

Lemma gaps_to_bounds (b hi : Z) (l : list (Z * Z)) :
  gaps_to b hi l ->
  Forall (fun p => b < p.1 /\ p.1 < p.2 /\ p.2 <= hi) l /\
  StronglySorted (fun p q : Z * Z => p.2 < q.1) l.
Proof.
  revert b. induction l as [|p r IH]; intros b H; [split; constructor|].
  simpl in H. destruct H as (Hb1 & Hb2 & Hb3 & Hr). destruct (IH _ Hr) as [Ha Hs]. split.
  - constructor; [done|]. eapply Forall_impl; [exact Ha|]. simpl. intros q ?. lia.
  - constructor; [done|]. eapply Forall_impl; [exact Ha|]. simpl. intros q ?. lia.
Qed.

Section EndpointServes.

Variable nfc : pystr -> pystr.
Variable softmax : vec -> vec.

Lemma encode_word_vocab_is_Some (words : list pystr) (w : pystr) :
  is_Some (encode_word nfc w (build_char_vocab nfc words)).
Proof.
  unfold encode_word.
  rewrite mapM_lookup_char_any, (build_char_vocab_UNK nfc words). simpl.
  rewrite (build_char_vocab_PAD nfc words). simpl.
  by destruct (len _ <? MAX_WORD_LEN).
Qed.

Lemma NerModel_forward_is_Some (m : NerModel) (vocab : gmap pystr Z)
    (tokens : list pystr) (x : list (list Z)) :
  mapM (fun w => encode_word nfc w vocab) tokens = Some x ->
  is_Some (NerModel_forward m x (map (true_char_len nfc) tokens)).
Proof.
  intros Hx. unfold NerModel_forward.
  assert (is_Some (CharEncoder_forward (char_encoder m) x
                     (clamp_min 1 (map (true_char_len nfc) tokens)))) as [h ->];
    [|by eexists].
  unfold CharEncoder_forward. apply mapM_Some in Hx.
  assert (len x = len (clamp_min 1 (map (true_char_len nfc) tokens))) as Hlen.
  { unfold len, clamp_min. rewrite !length_map. f_equal. symmetry.
    by apply (Forall2_length _ _ _ Hx). }
  rewrite decide_True by done. apply mapM_is_Some. clear Hlen.
  induction Hx as [|w ids ws xs Hw Hx IH]; simpl; constructor; [|exact IH].
  simpl. apply char_encoder_row_is_Some. rewrite (encode_word_length nfc _ _ _ Hw).
  pose proof (true_char_len_range nfc w). assert (1 <= MAX_WORD_LEN) by done. lia.
Qed.

(** X19: with the three artifacts loaded, a vocabulary made by
    [build_char_vocab] and a head that gives at least one class per token,
    [ner] answers every non-empty text with the normalized text and a list
    of entities, never with an error. It runs the model once, or not at
    all when the text has no token. There are no more entities than
    tokens, every entity lies inside the normalized text with start < end,
    and each entity ends strictly before the next one starts. *)
Theorem ner_serves (m : NerModel) (i2l : gmap pystr pystr) (words : list pystr)
    (text : pystr) :
  text <> [] ->
  (forall v, softmax (bio_head m v) <> []) ->
  exists ents (n : nat),
    ner nfc softmax {| model := Some m; id2label := Some i2l;
                       char2idx := Some (build_char_vocab nfc words) |} text =
      (NerOut (normalize_text nfc text) ents, n) /\
    (n <= 1)%nat /\
    (n = 0%nat <-> (ws_tokens_with_spans (normalize_text nfc text)).1 = []) /\
    (length ents <= length (ws_tokens_with_spans (normalize_text nfc text)).1)%nat /\
    Forall (fun e => 0 <= ent_start e /\ ent_start e < ent_end e /\
                     ent_end e <= len (normalize_text nfc text)) ents /\
    StronglySorted (fun e1 e2 => ent_end e1 < ent_start e2) ents.
Proof.
  intros Hne Hhead. unfold ner. rewrite decide_False by done.
  cbn [model id2label char2idx].
  set (t := normalize_text nfc text).
  pose proof (ws_scan_gaps_to t 0 None (-1) ltac:(simpl; lia)) as Hgaps.
  unfold ws_tokens_with_spans. cbn [fst snd].
  set (tokens := map fst (ws_scan 0 None t)) in *.
  set (spans := map snd (ws_scan 0 None t)) in *.
  replace (0 + len t) with (len t) in Hgaps by lia.
  case_decide as Htok.
  { exists [], 0%nat. rewrite Htok. repeat split; try done; try lia; constructor. }
  destruct (mapM (fun w => encode_word nfc w (build_char_vocab nfc words)) tokens)
    as [x|] eqn:Ex.
  2:{ exfalso. assert (is_Some (mapM (fun w => encode_word nfc w (build_char_vocab nfc words))
                                     tokens)) as [? ?]; [|congruence].
      apply mapM_is_Some, Forall_forall. intros w _. apply encode_word_vocab_is_Some. }
  destruct (NerModel_forward_is_Some m _ tokens x Ex) as [logits Hl]. rewrite Hl.
  assert (exists h, logits = map (bio_head m) h) as [h ->].
  { unfold NerModel_forward in Hl. destruct (CharEncoder_forward _ _ _) as [h0|]; [|done].
    simpl in Hl. injection Hl as <-. by eexists. }
  assert (Forall (fun p => p <> []) (map softmax (map (bio_head m) h))) as Hp.
  { rewrite map_map. apply Forall_forall. intros p Hp.
    apply list_elem_of_In, in_map_iff in Hp as (v & <- & _). apply Hhead. }
  assert (is_Some (mapM torch_argmax (map softmax (map (bio_head m) h)))) as [ids ->].
  { apply mapM_is_Some. eapply Forall_impl; [exact Hp|]. intros [|? ?] ?; [done|by eexists]. }
  assert (is_Some (mapM torch_max (map softmax (map (bio_head m) h)))) as [scs ->].
  { apply mapM_is_Some. eapply Forall_impl; [exact Hp|]. intros [|? ?] ?; [done|by eexists]. }
  eexists _, 1%nat. split; [done|]. split; [lia|]. split; [split; [done|by intros]|].
  rewrite decode_entities_emit. set (rows := zip4 tokens spans (labels_of i2l ids) scs).
  split.
  { destruct (emit_count rows None) as [_ H]. simpl in H.
    etrans; [exact H|]. etrans; [apply length_filter|]. apply zip4_length_le. }
  assert (gaps_to (-1) (len t) (map ent_span (emit None rows))) as He.
  { apply (emit_gaps_to rows None). simpl.
    destruct (zip4_spans_prefix tokens spans (labels_of i2l ids) scs) as [rest E].
    fold rows in E. rewrite E in Hgaps. by apply gaps_to_app_l in Hgaps. }
  apply gaps_to_bounds in He as [H1 H2]. split.
  - clear -H1. induction (emit None rows) as [|e es IH]; [constructor|].
    simpl in H1. apply Forall_cons_1 in H1 as [He H1].
    constructor; [|by apply IH]. unfold ent_span in He. simpl in He. lia.
  - clear -H2. induction (emit None rows) as [|e es IH]; [constructor|].
    simpl in H2. apply StronglySorted_inv in H2 as [H2 H3].
    constructor; [by apply IH|].
    clear -H3. induction es as [|e' es IH]; [constructor|].
    simpl in H3. apply Forall_cons_1 in H3 as [He H3]. constructor; [exact He|by apply IH].
Qed.

End EndpointServes.

Lemma ner_serves_witness :
  exists ents (n : nat),
    ner nfc_inert toy_softmax
        {| model := Some toy_model_head;
           id2label := Some (<[ py "1" := py "B-LOC" ]> {[ py "0" := py "O" ]});
           char2idx := Some (build_char_vocab nfc_inert [py "ab"]) |} (py "ab b") =
      (NerOut (normalize_text nfc_inert (py "ab b")) ents, n) /\
    (n <= 1)%nat /\
    (n = 0%nat <-> (ws_tokens_with_spans (normalize_text nfc_inert (py "ab b"))).1 = []) /\
    (length ents <= length (ws_tokens_with_spans (normalize_text nfc_inert (py "ab b"))).1)%nat /\
    Forall (fun e => 0 <= ent_start e /\ ent_start e < ent_end e /\
                     ent_end e <= len (normalize_text nfc_inert (py "ab b"))) ents /\
    StronglySorted (fun e1 e2 => ent_end e1 < ent_start e2) ents.
Proof.
  apply (ner_serves nfc_inert toy_softmax toy_model_head).
  - discriminate.
  - intros v. discriminate.
Defined.

Example ner_toy_head_run :
  ner nfc_inert toy_softmax
      {| model := Some toy_model_head;
         id2label := Some (<[ py "1" := py "B-LOC" ]> {[ py "0" := py "O" ]});
         char2idx := Some (build_char_vocab nfc_inert [py "ab"]) |} (py "ab b") =
  (NerOut (py "ab b")
          [ {| ent_text := py "b"; ent_label := py "LOC"; ent_score := 3%float;
               ent_start := 3; ent_end := 4 |} ],
   1%nat).
Proof. vm_compute. reflexivity. Qed.
